(** * NodeXmlExporter: discovery, statistics and export selection

    A shallow embedding of [NodeXmlExporter.py].  The exporter object, its
    logger and the progress bar form one state that the methods thread
    through a state-and-exception monad; the OPC UA session and the XML
    serializer are external collaborators and appear as a record of the
    answers they give.  The address space does not change during a run: a
    call gives the same answer each time it is made.  Coroutines run one
    after the other, so [await] is a plain call. *)

From stdpp Require Import base option list strings gmap relations.

Set Default Proof Using "Type".
Open Scope string_scope.
Open Scope Z_scope.
Open Scope list_scope.

(** ** Data model *)

(** The identifier part of a node id: numeric or string. *)
Inductive Identifier :=
  | Numeric (i : Z)
  | Text (s : string).

(** [node.nodeid]: a namespace index and an identifier. *)
Record NodeId := mkNodeId {
  NamespaceIndex : Z;
  Ident : Identifier;
}.

(** A node handle.  Two handles are equal when their node ids are, which is
    what [child not in self.nodes] compares. *)
Record Node := mkNode { nodeid : NodeId }.

#[global] Instance Identifier_eq_dec : EqDecision Identifier.
Proof. solve_decision. Defined.
#[global] Instance NodeId_eq_dec : EqDecision NodeId.
Proof. solve_decision. Defined.
#[global] Instance Node_eq_dec : EqDecision Node.
Proof. solve_decision. Defined.

(** The node classes a server reports. *)
Inductive NodeClass :=
  | Unspecified | Object | Variable_ | Method | ObjectType
  | VariableType | ReferenceType | DataType | View.

(** [str(node_class)], the label used as key of the count table. *)
Definition str (c : NodeClass) : string :=
  match c with
  | Unspecified => "NodeClass.Unspecified"
  | Object => "NodeClass.Object"
  | Variable_ => "NodeClass.Variable"
  | Method => "NodeClass.Method"
  | ObjectType => "NodeClass.ObjectType"
  | VariableType => "NodeClass.VariableType"
  | ReferenceType => "NodeClass.ReferenceType"
  | DataType => "NodeClass.DataType"
  | View => "NodeClass.View"
  end.

(** Exceptions.  [Exception] collects the subclasses of Python's
    [Exception] that occur: [UaError] stands for whatever a remote call, the
    security set-up or the serializer raises, [KeyError] is a failed dict
    lookup, [IndexError] a failed list index.  [SystemExit], raised by
    [sys.exit], is not an [Exception]. *)
Inductive Exception :=
  | UaError (msg : string)
  | KeyError (k : Z)
  | IndexError (i : nat).

Inductive exn :=
  | Exc (e : Exception)
  | SystemExit (code : option Z).

(** Logging levels and the calls made on [self.logger]. *)
Inductive Level := DEBUG | INFO | WARNING | ERROR.

Definition level_no (l : Level) : Z :=
  match l with DEBUG => 10 | INFO => 20 | WARNING => 30 | ERROR => 40 end.

Inductive Message :=
  | MsgAdd (node : Node)
  | MsgExportOnlyNS (namespaces : list Z)
  | MsgExportNodesTo (output_file : string)
  | MsgExportValues (export_values : bool)
  | MsgExportFinished
  | MsgNoConnection (e : Exception)
  | MsgExn (e : Exception)
  | MsgExiting
  | MsgConnected (server_url : string)
  | MsgStartCollect
  | MsgAllCollected
  | MsgCalculating
  | MsgSomeError (node : Node) (e : Exception)
  | MsgNS (ns : Z) (uri : string)
  | MsgTypeCount (type_info : string) (count : nat)
  | MsgTotal (count : nat).

Record LogRecord := mkLog { levelname : Level; message : Message }.

(** The session and the serializer, as the answers they give to each call.
    A call either raises or returns.  [build_etree nodes export_values] is
    [XmlExporter(self.client, export_values, bar.update).build_etree(nodes)];
    the serializer reads the list it is given. *)
Record Server := mkServer {
  set_security : Exception + unit;
  connect : Exception + unit;
  disconnect : Exception + unit;
  get_namespace_array : Exception + list string;
  get_namespace_index : string → Exception + Z;
  get_root_node : Node;
  get_children : Node → Exception + list Node;  (* hierarchical references, refs=33 *)
  read_node_class : Node → Exception + NodeClass;
  build_etree : list Node → bool → Exception + unit;
  write_xml : string → Exception + unit;
}.

(** The exporter object ([nodes], [namespaces], [visited], [client], the
    latter as the URL the client was made for) together with what it has
    written to its logger and to the browse progress bar. *)
Record State := mkState {
  nodes : list Node;
  namespaces : gmap Z string;
  visited : list Node;
  client : option string;
  log : list LogRecord;
  progress : list nat;
}.

(** [NodeXMLExporter()] : [__init__]. *)
Definition init : State :=
  {| nodes := []; namespaces := ∅; visited := []; client := None;
     log := []; progress := [] |}.

(** ** The monad *)

(** How a call ends: it returns, raises, or the model ran out of fuel. *)
Inductive res (A : Type) :=
  | Ret (a : A)
  | Raise (e : exn)
  | Fuel.
Arguments Ret {A} a.
Arguments Raise {A} e.
Arguments Fuel {A}.

(** Mutations made before an exception stay made. *)
Definition M (A : Type) : Type := State → res A * State.

Definition ret {A} (a : A) : M A := λ s, (Ret a, s).

Definition bind {A B} (m : M A) (f : A → M B) : M B :=
  λ s, match m s with
       | (Ret a, s') => f a s'
       | (Raise e, s') => (Raise e, s')
       | (Fuel, s') => (Fuel, s')
       end.

Definition raise {A} (e : exn) : M A := λ s, (Raise e, s).

Definition out_of_fuel {A} : M A := λ s, (Fuel, s).

Declare Scope py_scope.
Delimit Scope py_scope with py.
Notation "x <- m ;; k" := (bind m (λ x, k))
  (at level 100, m at next level, right associativity) : py_scope.
Notation "m ;; k" := (bind m (λ _, k))
  (at level 100, right associativity) : py_scope.
Open Scope py_scope.

(** [await call]: the answer of the collaborator, raised or returned. *)
Definition await {A} (r : Exception + A) : M A :=
  match r with
  | inl e => raise (Exc e)
  | inr a => ret a
  end.

(** [try: m  except Exception as e: h e]. *)
Definition try_except {A} (m : M A) (h : Exception → M A) : M A :=
  λ s, match m s with
       | (Raise (Exc e), s') => h e s'
       | r => r
       end.

(** [for x in l: body x]. *)
Fixpoint for_ {A} (l : list A) (body : A → M unit) : M unit :=
  match l with
  | [] => ret tt
  | x :: l' => body x ;; for_ l' body
  end.

(** A [for] loop that updates a local variable. *)
Fixpoint for_acc {A B} (l : list A) (acc : B) (body : A → B → M B) : M B :=
  match l with
  | [] => ret acc
  | x :: l' => acc' <- body x acc ;; for_acc l' acc' body
  end.

Definition self_nodes : M (list Node) := λ s, (Ret (nodes s), s).
Definition self_namespaces : M (gmap Z string) := λ s, (Ret (namespaces s), s).

Definition set_nodes (l : list Node) (s : State) : State :=
  {| nodes := l; namespaces := namespaces s; visited := visited s;
     client := client s; log := log s; progress := progress s |}.

Definition set_namespaces (m : gmap Z string) (s : State) : State :=
  {| nodes := nodes s; namespaces := m; visited := visited s;
     client := client s; log := log s; progress := progress s |}.

Definition set_client (c : option string) (s : State) : State :=
  {| nodes := nodes s; namespaces := namespaces s; visited := visited s;
     client := c; log := log s; progress := progress s |}.

Definition add_log (r : LogRecord) (s : State) : State :=
  {| nodes := nodes s; namespaces := namespaces s; visited := visited s;
     client := client s; log := log s ++ [r]; progress := progress s |}.

Definition add_progress (n : nat) (s : State) : State :=
  {| nodes := nodes s; namespaces := namespaces s; visited := visited s;
     client := client s; log := log s; progress := progress s ++ [n] |}.

(** [self.nodes.append(node)]. *)
Definition nodes_append (node : Node) : M unit :=
  λ s, (Ret tt, set_nodes (nodes s ++ [node]) s).

(** [self.logger.<level>(msg)]; the logger's level is [INFO]
    ([setLevel(logging.INFO)] in [__init__]), lower records are dropped. *)
Definition logger (l : Level) (msg : Message) : M unit :=
  λ s, if bool_decide (level_no INFO ≤ level_no l)
       then (Ret tt, add_log (mkLog l msg) s)
       else (Ret tt, s).

(** [bar.update(n)]. *)
Definition bar_update (n : nat) : M unit :=
  λ s, (Ret tt, add_progress n s).

(** ** Insertion-ordered dicts

    [typecounts_per_namespace] is iterated for the report, so its order
    matters: a dict is the list of its items in insertion order, an
    assignment to a present key overwrites in place, to a new key appends. *)

Section Dict.
Context {K V : Type} `{EqDecision K}.

Fixpoint dict_get (d : list (K * V)) (k : K) : option V :=
  match d with
  | [] => None
  | (k', v) :: d' => if decide (k' = k) then Some v else dict_get d' k
  end.

Fixpoint dict_set (d : list (K * V)) (k : K) (v : V) : list (K * V) :=
  match d with
  | [] => [(k, v)]
  | (k', v') :: d' =>
      if decide (k' = k) then (k', v) :: d' else (k', v') :: dict_set d' k v
  end.

(** [k in d]. *)
Definition dict_in (k : K) (d : list (K * V)) : bool :=
  bool_decide (is_Some (dict_get d k)).

(** The sum of a weight over the values of a dict. *)
Definition dict_total (w : V → nat) (d : list (K * V)) : nat :=
  foldr (λ kv total, w kv.2 + total)%nat 0%nat d.

End Dict.

(** The count table: namespace index, then class label, then count. *)
Abbreviation TypeCounts := (list (Z * list (string * nat))).

(** ** Traversal *)

Section Exporter.
Variable srv : Server.

(** [iterater_over_child_nodes(node, browse_progressbar)].  [fuel] bounds the
    depth of the recursion; the recursion limit of the interpreter is not
    modelled. *)
Fixpoint iterater_over_child_nodes (fuel : nat) (node : Node) : M unit :=
  match fuel with
  | O => out_of_fuel
  | S fuel' =>
      nodes_append node ;;
      logger DEBUG (MsgAdd node) ;;
      l <- self_nodes ;;
      bar_update (length l) ;;
      children <- await (get_children srv node) ;;
      for_ children (λ child,
        l <- self_nodes ;;
        if bool_decide (child ∉ l)
        then iterater_over_child_nodes fuel' child
        else ret tt)
  end.

(** [start_node_browse(rootnode)]; the progress bar it makes is the
    [progress] of the state. *)
Definition start_node_browse (fuel : nat) (rootnode : Node) : M unit :=
  iterater_over_child_nodes fuel rootnode.

(** ** Statistics *)

(** Lines 131-136: one more node of class [node_class] in namespace [ns].
    Both subscript reads are of keys the preceding test has found or the
    preceding assignment has made, hence the defaults are never used. *)
Definition count_node (typecounts : TypeCounts) (ns : Z) (node_class : string)
    : TypeCounts :=
  let typecounts :=
    if negb (dict_in ns typecounts) then dict_set typecounts ns []
    else typecounts in
  let of_ns := default [] (dict_get typecounts ns) in
  if negb (dict_in node_class of_ns)
  then dict_set typecounts ns (dict_set of_ns node_class 1%nat)
  else dict_set typecounts ns
         (dict_set of_ns node_class
            (default 0%nat (dict_get of_ns node_class) + 1)%nat).

(** The first loop of [statistics]: classify every node of the inventory.
    The progress bar wrapped around [range(nodecount)] only yields the
    indices. *)
Definition count_node_classes : M TypeCounts :=
  l <- self_nodes ;;
  let nodecount := length l in
  for_acc (seq 0 nodecount) [] (λ idx typecounts,
    l <- self_nodes ;;
    match l !! idx with
    | None => raise (Exc (IndexError idx))
    | Some node =>
        try_except
          (c <- await (read_node_class srv node) ;;
           let node_class := str c in
           let ns := NamespaceIndex (nodeid node) in
           ret (count_node typecounts ns node_class))
          (λ e, logger ERROR (MsgSomeError node e) ;; ret typecounts)
    end).

(** The second loop of [statistics] and its last line: the report.
    Iterating a dict and subscripting it with the key is iterating its
    items. *)
Definition report (typecounts : TypeCounts) : M unit :=
  for_ typecounts (λ '(ns, of_ns),
    m <- self_namespaces ;;
    match m !! ns with
    | None => raise (Exc (KeyError ns))
    | Some uri =>
        logger INFO (MsgNS ns uri) ;;
        for_ of_ns (λ '(type_info, count),
          logger INFO (MsgTypeCount type_info count))
    end) ;;
  l <- self_nodes ;;
  logger INFO (MsgTotal (length l)).

(** [statistics()]. *)
Definition statistics : M unit :=
  logger INFO MsgCalculating ;;
  typecounts_per_namespace <- count_node_classes ;;
  report typecounts_per_namespace.

(** ** Export *)

(** Truth value of the [namespaces] argument: [None] and the empty list are
    false. *)
Definition truthy (namespaces : option (list Z)) : bool :=
  match namespaces with
  | None => false
  | Some [] => false
  | Some (_ :: _) => true
  end.

(** Lines 39-44 of [export_xml]: the nodes handed to the serializer. *)
Definition select_for_export (namespaces : option (list Z)) (l : list Node)
    : list Node :=
  if truthy namespaces
  then filter (λ node, NamespaceIndex (nodeid node) ∈ default [] namespaces) l
  else l.

(** [export_xml(namespaces, output_file, export_values)].  The one test of
    [namespaces] decides both the log record and the selection. *)
Definition export_xml (namespaces : option (list Z)) (output_file : string)
    (export_values : bool) : M unit :=
  (if truthy namespaces
   then logger INFO (MsgExportOnlyNS (default [] namespaces))
   else ret tt) ;;
  l <- self_nodes ;;
  let nodes := select_for_export namespaces l in
  logger INFO (MsgExportNodesTo output_file) ;;
  logger INFO (MsgExportValues export_values) ;;
  await (build_etree srv nodes export_values) ;;
  await (write_xml srv output_file) ;;
  logger INFO MsgExportFinished.

(** ** Import *)

(** [sys.exit(code)]. *)
Definition sys_exit {A} (code : option Z) : M A := raise (SystemExit code).

(** [import_nodes(server_url, username, password, security)].  User name
    and password only configure the client; the security block (certificate
    file, its parsing, [set_security]) is one step of the session. *)
Definition import_nodes (fuel : nat) (server_url : string)
    (username password : option string) (security : bool) : M unit :=
  (λ s, (Ret tt, set_client (Some server_url) s)) ;;
  (if security then await (set_security srv) else ret tt) ;;
  try_except (await (connect srv))
    (λ e, logger ERROR (MsgNoConnection e) ;;
          logger ERROR (MsgExn e) ;;
          logger ERROR MsgExiting ;;
          sys_exit None) ;;
  logger INFO (MsgConnected server_url) ;;
  uris <- await (get_namespace_array srv) ;;
  for_ uris (λ ns,
    idx <- await (get_namespace_index srv ns) ;;
    (λ s, (Ret tt, set_namespaces (<[idx := ns]> (namespaces s)) s))) ;;
  let root := get_root_node srv in
  logger INFO MsgStartCollect ;;
  start_node_browse fuel root ;;
  logger INFO MsgAllCollected.

(** The command line, parsed. *)
Record Args := mkArgs {
  serverUrl : string;
  arg_namespaces : option (list Z);
  outputFile : string;
  username : option string;
  password : option string;
  security : bool;
  export_values : bool;
}.

(** [main()], run on a fresh exporter. *)
Definition main (fuel : nat) (args : Args) : M unit :=
  import_nodes fuel (serverUrl args) (username args) (password args)
    (security args) ;;
  statistics ;;
  export_xml (arg_namespaces args) (outputFile args) (export_values args) ;;
  await (disconnect srv).

End Exporter.

(** The status the interpreter exits with: 0 when [main] returns, the code
    of a [SystemExit] (0 when it carries none), 1 for an uncaught
    exception. *)
Definition exit_status (r : res unit) : option Z :=
  match r with
  | Ret _ => Some 0
  | Raise (SystemExit None) => Some 0
  | Raise (SystemExit (Some code)) => Some code
  | Raise (Exc _) => Some 1
  | Fuel => None
  end.

(** * Specification vocabulary *)

Section Vocabulary.
Variable srv : Server.

(** ** Traversal *)

(** A hierarchical reference of the address space. *)
Definition edge (a b : Node) : Prop :=
  ∃ cs, get_children srv a = inr cs ∧ b ∈ cs.

Definition reachable : relation Node := rtc edge.

(** The loop over the children, for any way [visit] of visiting one. *)
Definition browse_children (visit : Node → M unit) (children : list Node)
    : M unit :=
  for_ children (λ child,
    l <- self_nodes ;;
    if bool_decide (child ∉ l) then visit child else ret tt).

(** The state in which the children of [node] are fetched and expanded. *)
Definition appended (node : Node) (s : State) : State :=
  add_progress (length (nodes s ++ [node])) (set_nodes (nodes s ++ [node]) s).

(** Every child of [n] has been collected in [s]. *)
Definition expanded (n : Node) (s : State) : Prop :=
  ∃ cs, get_children srv n = inr cs ∧ ∀ c, c ∈ cs → c ∈ nodes s.

(** What the traversal leaves untouched. *)
Definition same_object (s s' : State) : Prop :=
  namespaces s' = namespaces s ∧ visited s' = visited s ∧
  client s' = client s ∧ log s' = log s.

(** What one visit of [node] does to the exporter. *)
Definition visit_post (node : Node) (s s' : State) : Prop :=
  ∃ rest,
    nodes s' = nodes s ++ node :: rest ∧
    (∀ n, n ∈ node :: rest → reachable node n) ∧
    (∀ n, n ∈ node :: rest → expanded n s') ∧
    (NoDup (nodes s) → node ∉ nodes s → NoDup (nodes s')) ∧
    progress s' =
      progress s ++ seq (S (length (nodes s))) (length (node :: rest)) ∧
    same_object s s'.

(** What the loop over [children] does. *)
Definition loop_post (children : list Node) (s s' : State) : Prop :=
  ∃ rest,
    nodes s' = nodes s ++ rest ∧
    (∀ n, n ∈ rest → ∃ c, c ∈ children ∧ reachable c n) ∧
    (∀ n, n ∈ rest → expanded n s') ∧
    (∀ c, c ∈ children → c ∈ nodes s') ∧
    (NoDup (nodes s) → NoDup (nodes s')) ∧
    progress s' = progress s ++ seq (S (length (nodes s))) (length rest) ∧
    same_object s s'.

(** A finite address space: a list of nodes on which browsing succeeds and
    which holds the children of each of its nodes. *)
Definition address_space (U : list Node) : Prop :=
  ∀ n, n ∈ U → ∃ cs, get_children srv n = inr cs ∧ ∀ c, c ∈ cs → c ∈ U.

(** How often a node occurs in a list. *)
Definition occurrences (n : Node) (l : list Node) : nat :=
  length (filter (λ x, x = n) l).

(** ** Statistics *)

(** The state after more records have been logged. *)
Definition add_logs (rs : list LogRecord) (s : State) : State :=
  {| nodes := nodes s; namespaces := namespaces s; visited := visited s;
     client := client s; log := log s ++ rs; progress := progress s |}.

(** The class of the node can be read. *)
Definition read_ok (n : Node) : bool :=
  match read_node_class srv n with
  | inr _ => true
  | inl _ => false
  end.

(** The number of nodes of a list whose class can be read. *)
Definition successes (l : list Node) : nat := length (filter read_ok l).

(** The error records of the nodes of a list whose class cannot be read. *)
Definition read_error_records (l : list Node) : list LogRecord :=
  l ≫= λ n, match read_node_class srv n with
            | inl e => [mkLog ERROR (MsgSomeError n e)]
            | inr _ => []
            end.

(** The count table of a list of nodes, counted into [typecounts]. *)
Definition classify (l : list Node) (typecounts : TypeCounts) : TypeCounts :=
  foldl (λ typecounts n,
           match read_node_class srv n with
           | inr c => count_node typecounts (NamespaceIndex (nodeid n)) (str c)
           | inl _ => typecounts
           end) typecounts l.

(** The sum of all counts of a table. *)
Definition table_total (typecounts : TypeCounts) : nat :=
  dict_total (dict_total (λ count, count)) typecounts.

(** The lines of the report for a table, labelled from the index [m]. *)
Definition report_lines (m : gmap Z string) (typecounts : TypeCounts)
    : list LogRecord :=
  typecounts ≫= λ '(ns, of_ns),
    mkLog INFO (MsgNS ns (default "" (m !! ns)))
    :: ((λ '(type_info, count), mkLog INFO (MsgTypeCount type_info count))
        <$> of_ns).

(** The sum of the counts that the type lines of a log give. *)
Definition reported_counts (rs : list LogRecord) : nat :=
  foldr (λ r total, match message r with
                    | MsgTypeCount _ count => (count + total)%nat
                    | _ => total
                    end) 0%nat rs.

(** The body of the first loop of [statistics]. *)
Definition count_body (idx : nat) (typecounts : TypeCounts) : M TypeCounts :=
  l <- self_nodes ;;
  match l !! idx with
  | None => raise (Exc (IndexError idx))
  | Some node =>
      try_except
        (c <- await (read_node_class srv node) ;;
         let node_class := str c in
         let ns := NamespaceIndex (nodeid node) in
         ret (count_node typecounts ns node_class))
        (λ e, logger ERROR (MsgSomeError node e) ;; ret typecounts)
  end.

(** The body of the second loop of [statistics]. *)
Definition report_body : Z * list (string * nat) → M unit :=
  λ '(ns, of_ns),
    m <- self_namespaces ;;
    match m !! ns with
    | None => raise (Exc (KeyError ns))
    | Some uri =>
        logger INFO (MsgNS ns uri) ;;
        for_ of_ns (λ '(type_info, count),
          logger INFO (MsgTypeCount type_info count))
    end.

End Vocabulary.

(** A computation that leaves [self.nodes] as it is, however it ends. *)
Definition keeps_nodes {A} (m : M A) : Prop := ∀ s, nodes (m s).2 = nodes s.

(** * A small plant, used to run the definitions

    Five nodes in namespaces 0, 0, 2, 2 and 3.  [Objects] and [Pump] refer to
    each other, [Root] refers to itself, [Pump] is a child of three nodes;
    the class of [Valve] cannot be read. *)

Definition Root : Node := mkNode (mkNodeId 0 (Numeric 84)).
Definition Objects : Node := mkNode (mkNodeId 0 (Numeric 85)).
Definition Pump : Node := mkNode (mkNodeId 2 (Text "Pump")).
Definition Valve : Node := mkNode (mkNodeId 2 (Text "Valve")).
Definition Tank : Node := mkNode (mkNodeId 3 (Numeric 7)).

Definition plant_nodes : list Node := [Root; Objects; Pump; Valve; Tank].

Definition plant_children (n : Node) : list Node :=
  if decide (n = Root) then [Objects; Pump; Root]
  else if decide (n = Objects) then [Pump; Tank; Root]
  else if decide (n = Pump) then [Valve; Objects]
  else if decide (n = Tank) then [Pump]
  else [].

Definition plant : Server :=
  {| set_security := inr tt;
     connect := inr tt;
     disconnect := inr tt;
     get_namespace_array :=
       inr ["http://opcfoundation.org/UA/"; "urn:vendor"; "urn:plant"; "urn:site"];
     get_namespace_index := λ uri,
       if decide (uri = "http://opcfoundation.org/UA/") then inr 0
       else if decide (uri = "urn:vendor") then inr 1
       else if decide (uri = "urn:plant") then inr 2
       else if decide (uri = "urn:site") then inr 3
       else inl (UaError "BadNoMatch");
     get_root_node := Root;
     get_children := λ n, inr (plant_children n);
     read_node_class := λ n,
       if decide (n = Valve) then inl (UaError "BadNodeIdUnknown")
       else if decide (n = Pump) then inr Variable_
       else inr Object;
     build_etree := λ _ _, inr tt;
     write_xml := λ _, inr tt |}.

(** The same plant behind a session that cannot be established. *)
Definition unreachable_plant : Server :=
  {| set_security := set_security plant;
     connect := inl (UaError "ConnectionRefused");
     disconnect := disconnect plant;
     get_namespace_array := get_namespace_array plant;
     get_namespace_index := get_namespace_index plant;
     get_root_node := get_root_node plant;
     get_children := get_children plant;
     read_node_class := read_node_class plant;
     build_etree := build_etree plant;
     write_xml := write_xml plant |}.

(** The plant after its import. *)
Definition plant_imported : State :=
  (import_nodes plant 5 "opc.tcp://plant:4840" None None false init).2.

(** Replaces the children of a given node of the plant by their list. *)
Ltac plant_children :=
  repeat match goal with
  | |- context [plant_children ?n] =>
      let cs := eval vm_compute in (plant_children n) in
      change (plant_children n) with cs
  end.

(** Decides a closed membership or equality by evaluation. *)
Ltac by_evaluation := apply (bool_decide_unpack _); vm_compute; exact I.

(** * Further vocabulary *)

Section TraversalVocabulary.
Variable srv : Server.

(** What a traversal does to the exporter however it ends: the inventory
    and the progress signal grow at their ends, in step, and nothing else
    changes. *)
Definition grows (s s' : State) : Prop :=
  ∃ rest,
    nodes s' = nodes s ++ rest ∧
    progress s' = progress s ++ seq (S (length (nodes s))) (length rest) ∧
    same_object s s'.

(** The exception is the one that browsing a collected node raises. *)
Definition browse_failure (x : exn) (s : State) : Prop :=
  ∃ n e, n ∈ nodes s ∧ get_children srv n = inl e ∧ x = Exc e.

(** Every node of [seg] is in [direct] or a child of a node that stands
    before it, in [before] or in [seg]. *)
Fixpoint below (direct before seg : list Node) : Prop :=
  match seg with
  | [] => True
  | n :: seg' =>
      (n ∈ direct ∨ ∃ p, p ∈ before ∧ edge srv p n) ∧
      below direct (before ++ [n]) seg'
  end.

End TraversalVocabulary.

Section StatisticsVocabulary.
Variable srv : Server.

(** [typecounts[ns][node_class]], 0 where the table has no such entry. *)
Definition count_of (typecounts : TypeCounts) (ns : Z) (node_class : string)
    : nat :=
  match dict_get typecounts ns with
  | Some of_ns => default 0%nat (dict_get of_ns node_class)
  | None => 0%nat
  end.

(** The class of the node can be read, its label is [node_class] and the
    node is in namespace [ns]. *)
Definition in_group (ns : Z) (node_class : string) (n : Node) : bool :=
  match read_node_class srv n with
  | inr c => bool_decide (NamespaceIndex (nodeid n) = ns ∧ str c = node_class)
  | inl _ => false
  end.

(** The number of nodes of a list in a group. *)
Definition group_size (ns : Z) (node_class : string) (l : list Node) : nat :=
  length (filter (in_group ns node_class) l).

(** The elements of a list in the order of their first occurrence, behind
    those already [seen]. *)
Definition first_seen_from {A} `{EqDecision A} (seen l : list A) : list A :=
  foldl (λ seen x, if bool_decide (x ∈ seen) then seen else seen ++ [x]) seen l.

(** The namespaces of the nodes of a list whose class can be read. *)
Definition counted_namespaces (l : list Node) : list Z :=
  (λ n, NamespaceIndex (nodeid n)) <$> filter (read_ok srv) l.

(** The class labels read from the nodes of a list that are in namespace
    [ns]. *)
Definition counted_classes (ns : Z) (l : list Node) : list string :=
  l ≫= λ n, match read_node_class srv n with
            | inr c => if bool_decide (NamespaceIndex (nodeid n) = ns)
                       then [str c] else []
            | inl _ => []
            end.

(** The namespaces that the namespace lines of a log name, in order. *)
Definition reported_namespaces (rs : list LogRecord) : list Z :=
  omap (λ r, match message r with
             | MsgNS ns _ => Some ns
             | _ => None
             end) rs.

End StatisticsVocabulary.

Section ImportVocabulary.
Variable srv : Server.

(** The body of the loop of [import_nodes] over the namespace array. *)
Definition index_body (ns : string) : M unit :=
  idx <- await (get_namespace_index srv ns) ;;
  (λ s, (Ret tt, set_namespaces (<[idx := ns]> (namespaces s)) s)).

(** The index [m] after the URIs of a list have been entered under the
    indices the server gives for them. *)
Definition namespace_index (uris : list string) (m : gmap Z string)
    : gmap Z string :=
  foldl (λ m uri, match get_namespace_index srv uri with
                  | inr idx => <[idx := uri]> m
                  | inl _ => m
                  end) m uris.

(** The exporter when [import_nodes] starts to browse: the client made, the
    connection and the start of the collection logged, the index built. *)
Definition ready (server_url : string) (uris : list string) (s : State) : State :=
  add_logs [mkLog INFO (MsgConnected server_url); mkLog INFO MsgStartCollect]
    (set_namespaces (namespace_index uris (namespaces s))
       (set_client (Some server_url) s)).

End ImportVocabulary.

(** A computation that only writes to the log: however it ends, the
    exporter is as before but for the records added. *)
Definition only_logs {A} (m : M A) : Prop :=
  ∀ s, ∃ rs, (m s).2 = add_logs rs s.

(** The plant with a branch that cannot be browsed. *)
Definition broken_plant : Server :=
  {| set_security := inl (UaError "cert.der not found");
     connect := connect plant;
     disconnect := disconnect plant;
     get_namespace_array := get_namespace_array plant;
     get_namespace_index := get_namespace_index plant;
     get_root_node := get_root_node plant;
     get_children := λ n,
       if decide (n = Tank) then inl (UaError "BadTimeout")
       else get_children plant n;
     read_node_class := read_node_class plant;
     build_etree := λ l _,
       if decide (l = []) then inl (UaError "nothing to export") else inr tt;
     write_xml := write_xml plant |}.

(** A computation that leaves [self.visited] as it is, however it ends. *)
Definition keeps_visited {A} (m : M A) : Prop :=
  ∀ s, visited (m s).2 = visited s.

(** * Properties *)

(** ** Running the monad *)

Lemma logger_debug msg s : logger DEBUG msg s = (Ret tt, s).
Proof. reflexivity. Qed.

Lemma logger_info msg s : logger INFO msg s = (Ret tt, add_log (mkLog INFO msg) s).
Proof. reflexivity. Qed.

Lemma logger_error msg s :
  logger ERROR msg s = (Ret tt, add_log (mkLog ERROR msg) s).
Proof. reflexivity. Qed.

Lemma bind_Ret {A B} (m : M A) (f : A → M B) s a s' :
  m s = (Ret a, s') → bind m f s = f a s'.
Proof. unfold bind. by intros ->. Qed.

Lemma bind_Ret_inv {A B} (m : M A) (f : A → M B) s b s' :
  bind m f s = (Ret b, s') →
  ∃ a s1, m s = (Ret a, s1) ∧ f a s1 = (Ret b, s').
Proof.
  unfold bind. destruct (m s) as [[a|e|] s1]; [eauto | done | done].
Qed.

(** ** Traversal *)

Section Traversal.
Variable srv : Server.
Local Abbreviation edge := (edge srv).
Local Abbreviation reachable := (reachable srv).
Local Abbreviation expanded := (expanded srv).
Local Abbreviation visit_post := (visit_post srv).
Local Abbreviation loop_post := (loop_post srv).
Local Abbreviation address_space := (address_space srv).

Lemma iterater_S fuel node s :
  iterater_over_child_nodes srv (S fuel) node s =
  (children <- await (get_children srv node) ;;
   browse_children (iterater_over_child_nodes srv fuel) children)
    (appended node s).
Proof. reflexivity. Qed.

Lemma browse_children_cons visit child children s :
  browse_children visit (child :: children) s =
  if bool_decide (child ∉ nodes s)
  then (visit child ;; browse_children visit children) s
  else browse_children visit children s.
Proof.
  unfold browse_children; simpl. unfold bind at 1 2, self_nodes.
  destruct (bool_decide (child ∉ nodes s)); reflexivity.
Qed.

Lemma expanded_mono n s s' rest :
  nodes s' = nodes s ++ rest → expanded n s → expanded n s'.
Proof.
  intros Hn (cs & Hcs & Hin). exists cs. split; [done|].
  intros c Hc. rewrite Hn. apply elem_of_app. left. by apply Hin.
Qed.

Lemma same_object_refl s : same_object s s.
Proof. by repeat split. Qed.

Lemma same_object_trans s1 s2 s3 :
  same_object s1 s2 → same_object s2 s3 → same_object s1 s3.
Proof. unfold same_object. intros (?&?&?&?) (?&?&?&?). repeat split; congruence. Qed.

Lemma browse_children_post visit children :
  (∀ child s s', visit child s = (Ret tt, s') → visit_post child s s') →
  ∀ s s', browse_children visit children s = (Ret tt, s') →
          loop_post children s s'.
Proof.
  intros Hvisit. induction children as [|child children IH]; intros s s' Hrun.
  - injection Hrun as <-. exists []. rewrite app_nil_r.
    split_and!; try done; try (by intros ? ?%elem_of_nil).
    simpl. by rewrite app_nil_r.
  - rewrite browse_children_cons in Hrun. case_bool_decide as Hnew.
    + apply bind_Ret_inv in Hrun as ([] & s1 & Hchild & Hrest).
      apply Hvisit in Hchild as (r1 & Hn1 & Hreach1 & Hexp1 & Hnd1 & Hp1 & Hsame1).
      apply IH in Hrest as (r2 & Hn2 & Hreach2 & Hexp2 & Hin2 & Hnd2 & Hp2 & Hsame2).
      exists ((child :: r1) ++ r2). split_and!.
      * rewrite Hn2, Hn1. by rewrite <-app_assoc.
      * intros n [Hn|Hn]%elem_of_app.
        -- exists child. split; [left | by apply Hreach1].
        -- destruct (Hreach2 n Hn) as (c & Hc & Hr). exists c. split; [by right | done].
      * intros n [Hn|Hn]%elem_of_app; [|by apply Hexp2].
        eapply expanded_mono; [exact Hn2 | by apply Hexp1].
      * intros c [->|Hc]%elem_of_cons; [|by apply Hin2].
        rewrite Hn2, Hn1. apply elem_of_app. left. apply elem_of_app. right. left.
      * intros Hnd. apply Hnd2, Hnd1; done.
      * rewrite Hp2, Hp1, Hn1, <-app_assoc. f_equal.
        rewrite (length_app (child :: r1) r2), seq_app. do 2 f_equal.
        rewrite length_app. simpl. lia.
      * by eapply same_object_trans.
    + apply IH in Hrun as (r2 & Hn2 & Hreach2 & Hexp2 & Hin2 & Hnd2 & Hp2 & Hsame2).
      exists r2. split_and!; try done.
      * intros n Hn. destruct (Hreach2 n Hn) as (c & Hc & Hr).
        exists c. split; [by right | done].
      * intros c [->|Hc]%elem_of_cons; [|by apply Hin2].
        rewrite Hn2. apply elem_of_app. by left.
Qed.

Lemma iterater_post fuel :
  ∀ node s s',
    iterater_over_child_nodes srv fuel node s = (Ret tt, s') →
    visit_post node s s'.
Proof.
  induction fuel as [|fuel IH]; intros node s s' Hrun; [done|].
  rewrite iterater_S in Hrun.
  apply bind_Ret_inv in Hrun as (cs & s1 & Hcs & Hloop).
  unfold await in Hcs. destruct (get_children srv node) as [e|cs'] eqn:Hget; [done|].
  injection Hcs as <- <-.
  apply (browse_children_post _ _ IH) in Hloop
    as (rest & Hn & Hreach & Hexp & Hin & Hnd & Hp & Hsame).
  simpl in Hn, Hnd, Hp. exists rest. split_and!.
  - by rewrite Hn, <-app_assoc.
  - intros n [->|Hn']%elem_of_cons; [apply rtc_refl|].
    destruct (Hreach n Hn') as (c & Hc & Hr).
    eapply rtc_l; [|exact Hr]. by exists cs'.
  - intros n [->|Hn']%elem_of_cons; [|by apply Hexp].
    by exists cs'.
  - intros Hnd0 Hnew. apply Hnd. apply NoDup_app. repeat split; [done| |apply NoDup_singleton].
    intros x Hx ->%list_elem_of_singleton. done.
  - rewrite Hp, <-app_assoc. f_equal. rewrite length_app. simpl.
    replace (length (nodes s) + 1)%nat with (S (length (nodes s))) by lia. done.
  - apply Hsame.
Qed.

Lemma reachable_address_space U a b :
  address_space U → reachable a b → a ∈ U → b ∈ U.
Proof.
  intros HU Hab. induction Hab as [a|a c b (cs & Hcs & Hc) _ IH]; [done|].
  intros Ha. apply IH. destruct (HU a Ha) as (cs' & Hcs' & Hin).
  apply Hin. congruence.
Qed.

(** A list that holds the children of each of its elements holds all that
    is reachable from them. *)
Lemma expanded_reachable s a b :
  (∀ n, n ∈ nodes s → expanded n s) → reachable a b → a ∈ nodes s → b ∈ nodes s.
Proof.
  intros Hexp Hab. induction Hab as [a|a c b (cs & Hcs & Hc) _ IH]; [done|].
  intros Ha. apply IH. destruct (Hexp a Ha) as (cs' & Hcs' & Hin).
  apply Hin. congruence.
Qed.

Lemma NoDup_length_le (l U : list Node) :
  NoDup l → (∀ n, n ∈ l → n ∈ U) → (length l ≤ length U)%nat.
Proof. intros Hnd Hin. by apply submseteq_length, NoDup_submseteq. Qed.

Lemma browse_children_returns U fuel :
  address_space U →
  (∀ node s,
     NoDup (nodes s) → (∀ n, n ∈ nodes s → n ∈ U) → node ∈ U →
     node ∉ nodes s → (length U ≤ fuel + length (nodes s))%nat →
     ∃ s', iterater_over_child_nodes srv fuel node s = (Ret tt, s')) →
  ∀ children s,
    (∀ c, c ∈ children → c ∈ U) →
    NoDup (nodes s) → (∀ n, n ∈ nodes s → n ∈ U) →
    (length U ≤ fuel + length (nodes s))%nat →
    ∃ s', browse_children (iterater_over_child_nodes srv fuel) children s
          = (Ret tt, s').
Proof.
  intros HU Hvisit. induction children as [|child children IH];
    intros s Hcs Hnd Hin Hfuel.
  - by exists s.
  - rewrite browse_children_cons. case_bool_decide as Hnew.
    + destruct (Hvisit child s) as (s1 & Hrun); try done.
      { apply Hcs. left. }
      pose proof (iterater_post _ _ _ _ Hrun)
        as (rest & Hn & Hreach & _ & Hnd1 & _).
      destruct (IH s1) as (s' & Hrest).
      * intros c Hc. apply Hcs. by right.
      * by apply Hnd1.
      * intros n. rewrite Hn. intros [?|Hn']%elem_of_app; [by apply Hin|].
        eapply reachable_address_space; [done | by apply Hreach |].
        apply Hcs. left.
      * rewrite Hn, length_app. lia.
      * exists s'. by rewrite (bind_Ret _ _ _ _ _ Hrun).
    + apply IH; try done. intros c Hc. apply Hcs. by right.
Qed.

Lemma iterater_returns U :
  address_space U →
  ∀ fuel node s,
    NoDup (nodes s) → (∀ n, n ∈ nodes s → n ∈ U) → node ∈ U →
    node ∉ nodes s → (length U ≤ fuel + length (nodes s))%nat →
    ∃ s', iterater_over_child_nodes srv fuel node s = (Ret tt, s').
Proof.
  intros HU. induction fuel as [|fuel IH]; intros node s Hnd Hin HnU Hnew Hfuel.
  - exfalso. assert (length (node :: nodes s) ≤ length U)%nat as Hle.
    { apply NoDup_length_le; [by constructor|].
      intros n [->|?]%elem_of_cons; [done | by apply Hin]. }
    simpl in Hle, Hfuel. lia.
  - rewrite iterater_S. destruct (HU node HnU) as (cs & Hcs & Hcl).
    assert (await (get_children srv node) (appended node s)
            = (Ret cs, appended node s)) as Haw by (by rewrite Hcs).
    rewrite (bind_Ret _ _ _ _ _ Haw).
    apply (browse_children_returns U fuel HU IH); simpl.
    + done.
    + apply NoDup_app. split_and!; [done| |apply NoDup_singleton].
      by intros x Hx ->%list_elem_of_singleton.
    + intros n [?| ->%list_elem_of_singleton]%elem_of_app; [by apply Hin | done].
    + rewrite length_app. simpl. lia.
Qed.

Lemma occurrences_not_elem_of n l : n ∉ l → occurrences n l = 0%nat.
Proof.
  unfold occurrences. induction l as [|x l IH]; [done|].
  intros [Hx Hl]%not_elem_of_cons. rewrite filter_cons_False by done. auto.
Qed.

Lemma occurrences_NoDup n l : NoDup l → n ∈ l → occurrences n l = 1%nat.
Proof.
  induction 1 as [|x l Hx Hnd IH]; [by intros ?%elem_of_nil|].
  intros Hn. unfold occurrences. destruct (decide (x = n)) as [->|Hne].
  - rewrite filter_cons_True by done. simpl. f_equal.
    by apply occurrences_not_elem_of.
  - rewrite filter_cons_False by done. apply IH.
    by apply elem_of_cons in Hn as [->|?].
Qed.

End Traversal.

Example plant_traversal :
  nodes (start_node_browse plant 5 Root init).2 = plant_nodes.
Proof. reflexivity. Qed.

Lemma plant_address_space : address_space plant plant_nodes.
Proof.
  intros n Hn. exists (plant_children n). split; [done|].
  unfold plant_nodes in *. intros c.
  repeat (apply elem_of_cons in Hn as [->|Hn]); try by apply elem_of_nil in Hn.
  all: plant_children; intros Hc.
  all: repeat (apply elem_of_cons in Hc as [->|Hc]); try by apply elem_of_nil in Hc.
  all: by_evaluation.
Qed.

Lemma plant_cycle : tc (edge plant) Pump Pump.
Proof.
  apply (tc_l _ Pump Objects Pump); [|apply tc_once].
  - exists (plant_children Pump). split; [done|]. by_evaluation.
  - exists (plant_children Objects). split; [done|]. by_evaluation.
Qed.

Lemma plant_reachable_Pump : reachable plant Root Pump.
Proof.
  apply rtc_once. exists (plant_children Root). split; [done|].
  by_evaluation.
Qed.

(** *** The inventory *)

(** What a traversal that returns leaves in an empty inventory, whatever
    the address space. *)
Lemma traversal_sound srv fuel root s s' :
  nodes s = [] →
  start_node_browse srv fuel root s = (Ret tt, s') →
  NoDup (nodes s') ∧ ∀ n, n ∈ nodes s' ↔ reachable srv root n.
Proof.
  intros Hempty Hrun. apply iterater_post in Hrun
    as (rest & Hn & Hreach & Hexp & Hnd & _).
  rewrite Hempty in *. simpl in Hn. split.
  - apply Hnd; [constructor | apply not_elem_of_nil].
  - intros n. rewrite Hn. split; [by apply Hreach|].
    intros Hr. rewrite <-Hn. eapply expanded_reachable; [|exact Hr|].
    + intros m. rewrite Hn. apply Hexp.
    + rewrite Hn. left.
Qed.

Lemma traversal_returns srv U fuel root s :
  address_space srv U → root ∈ U → nodes s = [] → (length U ≤ fuel)%nat →
  ∃ s', start_node_browse srv fuel root s = (Ret tt, s').
Proof.
  intros HU Hroot Hempty Hfuel. apply (iterater_returns srv U HU); rewrite ?Hempty.
  - constructor.
  - by intros n ?%elem_of_nil.
  - done.
  - apply not_elem_of_nil.
  - simpl. lia.
Qed.

(** The progress signal of a traversal: the sizes 1, 2, ... of the growing
    inventory. *)
Lemma traversal_progress srv fuel root s s' :
  nodes s = [] →
  start_node_browse srv fuel root s = (Ret tt, s') →
  progress s' = progress s ++ seq 1 (length (nodes s')).
Proof.
  intros Hempty Hrun. apply iterater_post in Hrun
    as (rest & Hn & _ & _ & _ & Hp & _).
  rewrite Hp, Hn, Hempty. reflexivity.
Qed.

(** A root without hierarchical children is the whole inventory. *)
Example leaf_root_traversal :
  nodes (start_node_browse plant 1 Valve init).2 = [Valve] ∧
  (start_node_browse plant 1 Valve init).1 = Ret tt.
Proof. split; reflexivity. Qed.

(** C1.  On every finite address space the traversal started on an empty
    inventory returns, no node occurs twice in the inventory it leaves, and
    the inventory holds exactly the nodes reachable from the root by
    hierarchical references, however many paths lead to a node. *)
Theorem inventory_is_reachable_set_once srv U fuel root s :
  address_space srv U → root ∈ U → nodes s = [] → (length U ≤ fuel)%nat →
  ∃ s', start_node_browse srv fuel root s = (Ret tt, s') ∧
        NoDup (nodes s') ∧
        (∀ n, n ∈ nodes s' ↔ reachable srv root n) ∧
        (∀ n, reachable srv root n → occurrences n (nodes s') = 1%nat).
Proof.
  intros HU Hroot Hempty Hfuel.
  destruct (traversal_returns srv U fuel root s) as (s' & Hrun); try done.
  destruct (traversal_sound srv fuel root s s') as (Hnd & Hiff); try done.
  exists s'. split_and!; try done.
  intros n Hn. apply occurrences_NoDup; [done | by apply Hiff].
Qed.

Lemma inventory_is_reachable_set_once_witness :
  ∃ s', start_node_browse plant 5 Root init = (Ret tt, s') ∧
        NoDup (nodes s') ∧
        (∀ n, n ∈ nodes s' ↔ reachable plant Root n) ∧
        (∀ n, reachable plant Root n → occurrences n (nodes s') = 1%nat).
Proof.
  apply (inventory_is_reachable_set_once plant plant_nodes 5 Root init).
  - exact plant_address_space.
  - left.
  - reflexivity.
  - simpl. lia.
Defined.

(** *** Cycles *)

(** C2.  On a finite address space with a cycle of hierarchical references
    the traversal returns and a node of the cycle that the root reaches
    occurs once in the inventory.  A visit appends its node before it
    fetches the children and loops over them, so that the loop finds the
    node in the inventory when a reference leads back to it. *)
Theorem cycle_node_collected_once srv U fuel root s n :
  address_space srv U → root ∈ U → nodes s = [] → (length U ≤ fuel)%nat →
  reachable srv root n → tc (edge srv) n n →
  (∃ s', start_node_browse srv fuel root s = (Ret tt, s') ∧
         occurrences n (nodes s') = 1%nat) ∧
  (∀ fuel' node s0,
     node ∈ nodes (appended node s0) ∧
     iterater_over_child_nodes srv (S fuel') node s0 =
       (children <- await (get_children srv node) ;;
        browse_children (iterater_over_child_nodes srv fuel') children)
         (appended node s0)).
Proof.
  intros HU Hroot Hempty Hfuel Hreach _. split.
  - destruct (traversal_returns srv U fuel root s) as (s' & Hrun); try done.
    destruct (traversal_sound srv fuel root s s') as (Hnd & Hiff); try done.
    exists s'. split; [done|].
    apply occurrences_NoDup; [done | by apply Hiff].
  - intros fuel' node s0. split; [|apply iterater_S].
    simpl. apply elem_of_app. right. left.
Qed.

Lemma cycle_node_collected_once_witness :
  (∃ s', start_node_browse plant 5 Root init = (Ret tt, s') ∧
         occurrences Pump (nodes s') = 1%nat) ∧
  (∀ fuel' node s0,
     node ∈ nodes (appended node s0) ∧
     iterater_over_child_nodes plant (S fuel') node s0 =
       (children <- await (get_children plant node) ;;
        browse_children (iterater_over_child_nodes plant fuel') children)
         (appended node s0)).
Proof.
  apply (cycle_node_collected_once plant plant_nodes 5 Root init Pump).
  - exact plant_address_space.
  - left.
  - reflexivity.
  - simpl. lia.
  - exact plant_reachable_Pump.
  - exact plant_cycle.
Defined.

(** *** Visiting a node that is already collected *)

(** The visit has no test of its own: called on a node of the inventory it
    appends the node a second time. *)
Lemma visit_of_collected_node_appends :
  Valve ∈ nodes (set_nodes [Valve] init) ∧
  (iterater_over_child_nodes plant 1 Valve (set_nodes [Valve] init)).1 = Ret tt ∧
  nodes (iterater_over_child_nodes plant 1 Valve (set_nodes [Valve] init)).2
  = [Valve; Valve].
Proof. split_and!; [left | reflexivity | reflexivity]. Qed.


(** ** Export selection *)

Lemma select_for_export_all l : select_for_export None l = l.
Proof. reflexivity. Qed.

Lemma select_for_export_nonempty ns namespaces l :
  select_for_export (Some (ns :: namespaces)) l
  = filter (λ node, NamespaceIndex (nodeid node) ∈ ns :: namespaces) l.
Proof. reflexivity. Qed.

(** The scenario of the specification: filter {2} on namespaces 0,0,2,2,3. *)
Example select_namespace_2 :
  select_for_export (Some [2]) plant_nodes = [Pump; Valve].
Proof. reflexivity. Qed.

(** The empty filter set selects nodes whose namespace it does not hold. *)
Lemma empty_filter_selects_foreign_nodes :
  ¬ (∀ n, n ∈ select_for_export (Some []) plant_nodes ↔
          n ∈ plant_nodes ∧ NamespaceIndex (nodeid n) ∈ ([] : list Z)).
Proof.
  intros H. destruct (H Root) as [Himp _].
  destruct Himp as [_ Hin]; [left|]. by apply elem_of_nil in Hin.
Qed.

(** C5, as the code has it.  For every inventory and every filter set the
    selection is idempotent and a subsequence of the inventory in the same
    order; for a filter set that is not empty it holds exactly the nodes of
    the inventory whose namespace index is in the set. *)
Theorem select_for_export_filters (F : list Z) (l : list Node) :
  select_for_export (Some F) (select_for_export (Some F) l)
  = select_for_export (Some F) l ∧
  select_for_export (Some F) l `sublist_of` l ∧
  (F ≠ [] →
   ∀ n, n ∈ select_for_export (Some F) l ↔
        n ∈ l ∧ NamespaceIndex (nodeid n) ∈ F).
Proof.
  destruct F as [|ns F]; [by split_and! |].
  rewrite !select_for_export_nonempty. split_and!.
  - rewrite list_filter_filter. apply list_filter_iff. intros n. tauto.
  - apply sublist_filter.
  - intros _ n. rewrite list_elem_of_filter. tauto.
Qed.

Lemma select_for_export_filters_witness :
  select_for_export (Some [2]) (select_for_export (Some [2]) plant_nodes)
  = select_for_export (Some [2]) plant_nodes ∧
  select_for_export (Some [2]) plant_nodes `sublist_of` plant_nodes ∧
  ∀ n, n ∈ select_for_export (Some [2]) plant_nodes ↔
       n ∈ plant_nodes ∧ NamespaceIndex (nodeid n) ∈ [2].
Proof.
  destruct (select_for_export_filters [2] plant_nodes) as (Hidem & Hsub & Hin).
  split_and!; [exact Hidem | exact Hsub | apply Hin; discriminate].
Defined.

(** C6.  Without a namespace filter the selection is the inventory itself,
    same nodes in the same order, and it is the inventory that the
    serializer is given. *)
Theorem export_all_is_inventory srv (l : list Node) output_file export_values s :
  select_for_export None l = l ∧
  export_xml srv None output_file export_values s =
    (logger INFO (MsgExportNodesTo output_file) ;;
     logger INFO (MsgExportValues export_values) ;;
     await (build_etree srv (nodes s) export_values) ;;
     await (write_xml srv output_file) ;;
     logger INFO MsgExportFinished) s.
Proof. split; reflexivity. Qed.

(** C10.  An empty list of namespaces is not told apart from no list: the
    selection is the whole inventory, and the export runs as it does
    without a filter. *)
Theorem export_empty_filter_is_all srv (l : list Node) output_file export_values :
  select_for_export (Some []) l = l ∧
  select_for_export (Some []) l = select_for_export None l ∧
  export_xml srv (Some []) output_file export_values
  = export_xml srv None output_file export_values.
Proof. split_and!; reflexivity. Qed.

(** ** Dicts *)

Section DictFacts.
Context {K V : Type} `{EqDecision K}.
Implicit Types (d : list (K * V)) (k : K) (v : V).

Lemma dict_in_Some k d v : dict_get d k = Some v → dict_in k d = true.
Proof. intros Hget. apply bool_decide_eq_true. by rewrite Hget. Qed.

Lemma dict_in_None k d : dict_get d k = None → dict_in k d = false.
Proof. intros Hget. apply bool_decide_eq_false. rewrite Hget. by intros [? ?]. Qed.

Lemma dict_get_set_eq d k v : dict_get (dict_set d k v) k = Some v.
Proof.
  induction d as [|[k' v'] d IH]; simpl.
  - by rewrite decide_True.
  - destruct (decide (k' = k)) as [->|Hne]; simpl.
    + by rewrite decide_True.
    + by rewrite decide_False.
Qed.

Lemma dict_set_not_nil d k v : dict_set d k v ≠ [].
Proof. destruct d as [|[k' v'] d]; simpl; [done|]. by case_decide. Qed.

Lemma dict_set_keys d k v k' :
  k' ∈ (dict_set d k v).*1 → k' = k ∨ k' ∈ d.*1.
Proof.
  induction d as [|[k0 v0] d IH]; simpl.
  - intros ->%list_elem_of_singleton. by left.
  - case_decide; simpl; [by right|].
    intros [->|Hin]%elem_of_cons; [right; left|].
    destruct (IH Hin) as [->|?]; [by left | right; by right].
Qed.

Lemma dict_total_set (w : V → nat) d k v :
  (dict_total w (dict_set d k v) + from_option w 0 (dict_get d k)
   = dict_total w d + w v)%nat.
Proof.
  unfold dict_total. induction d as [|[k' v'] d IH]; simpl; [lia|].
  case_decide; simpl; lia.
Qed.

End DictFacts.

(** ** Statistics *)

Section Statistics.
Variable srv : Server.
Local Abbreviation read_ok := (read_ok srv).
Local Abbreviation successes := (successes srv).
Local Abbreviation read_error_records := (read_error_records srv).
Local Abbreviation classify := (classify srv).
Local Abbreviation count_body := (count_body srv).

Lemma add_logs_nil s : add_logs [] s = s.
Proof. destruct s. unfold add_logs. simpl. by rewrite app_nil_r. Qed.

Lemma add_logs_app rs1 rs2 s : add_logs rs2 (add_logs rs1 s) = add_logs (rs1 ++ rs2) s.
Proof. unfold add_logs. simpl. by rewrite app_assoc. Qed.

Lemma add_log_add_logs r s : add_log r s = add_logs [r] s.
Proof. reflexivity. Qed.

Lemma count_node_total typecounts ns node_class :
  table_total (count_node typecounts ns node_class) = S (table_total typecounts).
Proof.
  unfold count_node, table_total.
  set (w := dict_total (λ count : nat, count)).
  destruct (dict_get typecounts ns) as [of_ns|] eqn:Hget.
  - rewrite (dict_in_Some _ _ _ Hget). simpl. rewrite Hget. simpl.
    pose proof (dict_total_set w typecounts ns) as Hset. rewrite Hget in Hset.
    simpl in Hset.
    destruct (dict_get of_ns node_class) as [count|] eqn:Hc.
    + rewrite (dict_in_Some _ _ _ Hc). simpl.
      pose proof (dict_total_set (λ count : nat, count) of_ns node_class
                    (count + 1)%nat) as Hin.
      rewrite Hc in Hin. simpl in Hin. fold w in Hin.
      specialize (Hset (dict_set of_ns node_class (count + 1)%nat)). lia.
    + rewrite (dict_in_None _ _ Hc). simpl.
      pose proof (dict_total_set (λ count : nat, count) of_ns node_class 1%nat)
        as Hin.
      rewrite Hc in Hin. simpl in Hin. fold w in Hin.
      specialize (Hset (dict_set of_ns node_class 1%nat)). lia.
  - rewrite (dict_in_None _ _ Hget). simpl. rewrite dict_get_set_eq. simpl.
    pose proof (dict_total_set w typecounts ns []) as Hset1.
    rewrite Hget in Hset1. simpl in Hset1.
    pose proof (dict_total_set w (dict_set typecounts ns []) ns
                  [(node_class, 1%nat)]) as Hset2.
    rewrite dict_get_set_eq in Hset2. simpl in Hset2.
    change (w []) with 0%nat in *. change (w [(node_class, 1%nat)]) with 1%nat in *.
    lia.
Qed.

Lemma count_node_not_nil typecounts ns node_class :
  count_node typecounts ns node_class ≠ [].
Proof. unfold count_node. case_match; apply dict_set_not_nil. Qed.

Lemma count_node_keys typecounts ns node_class k :
  k ∈ (count_node typecounts ns node_class).*1 → k = ns ∨ k ∈ typecounts.*1.
Proof.
  unfold count_node. intros Hk.
  assert (k = ns ∨ k ∈ (if negb (dict_in ns typecounts)
                        then dict_set typecounts ns [] else typecounts).*1)
    as [?|Hk'] by (case_match; by apply dict_set_keys in Hk); [by left|].
  destruct (negb (dict_in ns typecounts)); [|by right].
  by apply dict_set_keys in Hk'.
Qed.

Lemma count_node_classes_unfold s :
  count_node_classes srv s = for_acc (seq 0 (length (nodes s))) [] count_body s.
Proof. reflexivity. Qed.

Lemma count_body_run idx typecounts s node :
  nodes s !! idx = Some node →
  count_body idx typecounts s =
  (Ret (classify [node] typecounts), add_logs (read_error_records [node]) s).
Proof.
  intros Hidx. unfold count_body, bind, self_nodes. rewrite Hidx.
  unfold try_except, bind, await, classify, read_error_records. simpl.
  destruct (read_node_class srv node) as [e|c]; simpl.
  - reflexivity.
  - by rewrite add_logs_nil.
Qed.

Lemma classify_cons n l typecounts :
  classify (n :: l) typecounts = classify l (classify [n] typecounts).
Proof. reflexivity. Qed.

Lemma read_error_records_cons n l :
  read_error_records (n :: l) = read_error_records [n] ++ read_error_records l.
Proof. unfold read_error_records. simpl. by rewrite app_nil_r. Qed.

Lemma count_loop count :
  ∀ idx typecounts s,
    (idx + count ≤ length (nodes s))%nat →
    for_acc (seq idx count) typecounts count_body s =
    (Ret (classify (take count (drop idx (nodes s))) typecounts),
     add_logs (read_error_records (take count (drop idx (nodes s)))) s).
Proof.
  induction count as [|count IH]; intros idx typecounts s Hlen.
  - simpl. by rewrite add_logs_nil.
  - destruct (lookup_lt_is_Some_2 (nodes s) idx) as [node Hnode]; [lia|].
    simpl. rewrite (bind_Ret _ _ _ _ _ (count_body_run _ typecounts _ _ Hnode)).
    rewrite IH by (simpl; lia). simpl.
    rewrite (drop_S _ _ _ Hnode). simpl.
    by rewrite add_logs_app, app_nil_r.
Qed.

Lemma count_node_classes_run s :
  count_node_classes srv s =
  (Ret (classify (nodes s) []), add_logs (read_error_records (nodes s)) s).
Proof.
  rewrite count_node_classes_unfold, count_loop by (simpl; lia).
  by rewrite drop_0, firstn_all.
Qed.

Lemma classify_one n typecounts :
  classify [n] typecounts =
  match read_node_class srv n with
  | inr c => count_node typecounts (NamespaceIndex (nodeid n)) (str c)
  | inl _ => typecounts
  end.
Proof. reflexivity. Qed.

Lemma read_error_records_one n :
  read_error_records [n] =
  match read_node_class srv n with
  | inl e => [mkLog ERROR (MsgSomeError n e)]
  | inr _ => []
  end.
Proof. unfold read_error_records. simpl. by rewrite app_nil_r. Qed.

Lemma successes_cons n l :
  successes (n :: l) =
  ((match read_node_class srv n with inr _ => 1 | inl _ => 0 end)
   + successes l)%nat.
Proof.
  unfold successes. destruct (read_node_class srv n) as [e|c] eqn:Hread.
  - rewrite filter_cons_False; [done|]. unfold read_ok. rewrite Hread.
    intros H. exact H.
  - rewrite filter_cons_True; [done|]. unfold read_ok. rewrite Hread. exact I.
Qed.

Lemma classify_total l :
  ∀ typecounts,
    table_total (classify l typecounts)
    = (table_total typecounts + successes l)%nat.
Proof.
  induction l as [|n l IH]; intros typecounts.
  - unfold successes. simpl. lia.
  - rewrite classify_cons, IH, successes_cons, classify_one.
    destruct (read_node_class srv n) as [e|c]; [lia|].
    rewrite count_node_total. lia.
Qed.

Lemma read_error_records_length l :
  (successes l + length (read_error_records l))%nat = length l.
Proof.
  induction l as [|n l IH]; [done|].
  rewrite read_error_records_cons, length_app, successes_cons,
    read_error_records_one.
  destruct (read_node_class srv n) as [e|c]; simpl; lia.
Qed.

Lemma read_error_records_elem l n e :
  n ∈ l → read_node_class srv n = inl e →
  mkLog ERROR (MsgSomeError n e) ∈ read_error_records l.
Proof.
  intros Hn He. unfold read_error_records. apply list_elem_of_bind.
  exists n. split; [|done]. rewrite He. left.
Qed.

Lemma classify_keys l :
  ∀ typecounts k,
    k ∈ (classify l typecounts).*1 →
    k ∈ typecounts.*1 ∨
    ∃ n, n ∈ l ∧ read_ok n ∧ k = NamespaceIndex (nodeid n).
Proof.
  induction l as [|n l IH]; intros typecounts k; [by left|].
  rewrite classify_cons. intros [Hk|(m & Hm & Hok & ->)]%IH.
  - rewrite classify_one in Hk.
    destruct (read_node_class srv n) as [e|c] eqn:Hread; [by left|].
    apply count_node_keys in Hk as [->|?]; [|by left].
    right. exists n. split_and!; [left | | done].
    unfold read_ok. by rewrite Hread.
  - right. exists m. split_and!; [by right | done | done].
Qed.

Lemma classify_not_nil l :
  ∀ typecounts, typecounts ≠ [] → classify l typecounts ≠ [].
Proof.
  induction l as [|n l IH]; intros typecounts Hne; [done|].
  rewrite classify_cons. apply IH. rewrite classify_one.
  destruct (read_node_class srv n); [done | apply count_node_not_nil].
Qed.

Lemma classify_success l :
  ∀ typecounts, successes l ≠ 0%nat → classify l typecounts ≠ [].
Proof.
  induction l as [|n l IH]; intros typecounts; [done|].
  rewrite classify_cons, successes_cons, classify_one.
  destruct (read_node_class srv n); simpl; [by apply IH|].
  intros _. apply classify_not_nil, count_node_not_nil.
Qed.

Lemma classify_no_success l :
  ∀ typecounts, successes l = 0%nat → classify l typecounts = typecounts.
Proof.
  induction l as [|n l IH]; intros typecounts; [done|].
  rewrite classify_cons, successes_cons, classify_one.
  destruct (read_node_class srv n); simpl; [apply IH | done].
Qed.

(** The type lines of one namespace. *)
Lemma type_lines_run (of_ns : list (string * nat)) s :
  for_ of_ns (λ '(type_info, count), logger INFO (MsgTypeCount type_info count)) s
  = (Ret tt,
     add_logs ((λ '(type_info, count), mkLog INFO (MsgTypeCount type_info count))
               <$> of_ns) s).
Proof.
  revert s. induction of_ns as [|[type_info count] of_ns IH]; intros s.
  - simpl. by rewrite add_logs_nil.
  - simpl. unfold bind at 1. rewrite logger_info, IH.
    by rewrite add_log_add_logs, add_logs_app.
Qed.

Lemma report_unfold typecounts :
  report typecounts =
  (for_ typecounts report_body ;;
   l <- self_nodes ;;
   logger INFO (MsgTotal (length l))).
Proof. reflexivity. Qed.

Lemma report_loop_run typecounts :
  ∀ s,
    (∀ ns, ns ∈ typecounts.*1 → is_Some (namespaces s !! ns)) →
    for_ typecounts report_body s
    = (Ret tt, add_logs (report_lines (namespaces s) typecounts) s).
Proof.
  induction typecounts as [|[ns of_ns] typecounts IH]; intros s Hres.
  - simpl. by rewrite add_logs_nil.
  - destruct (Hres ns) as [uri Huri]; [left|].
    simpl. unfold bind at 1. unfold bind at 1, self_namespaces. rewrite Huri.
    unfold bind at 1. rewrite logger_info, type_lines_run.
    rewrite IH.
    + simpl. by rewrite !add_log_add_logs, !add_logs_app.
    + intros k Hk. simpl. apply Hres. by right.
Qed.

Lemma report_run typecounts s :
  (∀ ns, ns ∈ typecounts.*1 → is_Some (namespaces s !! ns)) →
  report typecounts s
  = (Ret tt,
     add_logs (report_lines (namespaces s) typecounts
               ++ [mkLog INFO (MsgTotal (length (nodes s)))]) s).
Proof.
  intros Hres. rewrite report_unfold. unfold bind at 1.
  rewrite report_loop_run by done.
  unfold bind, self_nodes. rewrite logger_info. simpl.
  by rewrite add_log_add_logs, add_logs_app.
Qed.

Lemma report_raises ns of_ns typecounts s :
  namespaces s !! ns = None →
  report ((ns, of_ns) :: typecounts) s = (Raise (Exc (KeyError ns)), s).
Proof.
  intros Hnone. rewrite report_unfold. simpl.
  unfold bind at 1. unfold bind at 1. unfold bind at 1.
  unfold self_namespaces. by rewrite Hnone.
Qed.

Lemma reported_counts_app rs1 rs2 :
  reported_counts (rs1 ++ rs2) = (reported_counts rs1 + reported_counts rs2)%nat.
Proof.
  unfold reported_counts. induction rs1 as [|r rs1 IH]; simpl; [done|].
  rewrite IH. destruct (message r); lia.
Qed.

Lemma reported_counts_type_lines (of_ns : list (string * nat)) :
  reported_counts
    ((λ '(type_info, count), mkLog INFO (MsgTypeCount type_info count)) <$> of_ns)
  = dict_total (λ count, count) of_ns.
Proof.
  unfold reported_counts, dict_total.
  induction of_ns as [|[type_info count] of_ns IH]; [done|].
  rewrite fmap_cons. cbn [foldr message snd]. by rewrite IH.
Qed.

Lemma reported_counts_report_lines m typecounts :
  reported_counts (report_lines m typecounts) = table_total typecounts.
Proof.
  unfold report_lines, table_total.
  induction typecounts as [|[ns of_ns] typecounts IH]; [done|].
  change (reported_counts
            ((mkLog INFO (MsgNS ns (default "" (m !! ns))) ::
              ((λ '(type_info, count), mkLog INFO (MsgTypeCount type_info count))
               <$> of_ns))
             ++ (typecounts ≫= λ '(ns, of_ns),
                   mkLog INFO (MsgNS ns (default "" (m !! ns)))
                   :: ((λ '(type_info, count),
                          mkLog INFO (MsgTypeCount type_info count)) <$> of_ns)))
          = (dict_total (λ count, count) of_ns
             + dict_total (dict_total (λ count, count)) typecounts)%nat).
  rewrite reported_counts_app, IH. f_equal.
  apply (reported_counts_type_lines of_ns).
Qed.

Lemma statistics_unfold s :
  statistics srv s =
  (typecounts <- count_node_classes srv ;; report typecounts)
    (add_logs [mkLog INFO MsgCalculating] s).
Proof. reflexivity. Qed.

End Statistics.

Lemma statistics_run srv s :
  (∀ n, n ∈ nodes s → read_ok srv n →
        is_Some (namespaces s !! NamespaceIndex (nodeid n))) →
  statistics srv s =
  (Ret tt,
   add_logs (mkLog INFO MsgCalculating
             :: read_error_records srv (nodes s)
             ++ report_lines (namespaces s) (classify srv (nodes s) [])
             ++ [mkLog INFO (MsgTotal (length (nodes s)))]) s).
Proof.
  intros Hres. rewrite statistics_unfold.
  rewrite (bind_Ret _ _ _ _ _ (count_node_classes_run srv _)). simpl.
  rewrite report_run; simpl.
  - by rewrite !add_logs_app.
  - intros ns [Hin|(n & Hn & Hok & ->)]%classify_keys; [|by apply Hres].
    by apply elem_of_nil in Hin.
Qed.

(** C3.  The counting pass of [statistics] always runs to its end: a node
    whose class cannot be read gets an error record and no count, the
    other nodes are counted, and the counts of the table sum to the number
    of classes read.  When the namespaces of the counted nodes are in the
    namespace index, [statistics] returns, its type lines sum to the number
    of classes read, and its last line gives the size of the inventory. *)
Theorem statistics_tolerates_read_failures srv s :
  count_node_classes srv s =
    (Ret (classify srv (nodes s) []),
     add_logs (read_error_records srv (nodes s)) s) ∧
  (∀ n e, n ∈ nodes s → read_node_class srv n = inl e →
          mkLog ERROR (MsgSomeError n e) ∈ read_error_records srv (nodes s)) ∧
  table_total (classify srv (nodes s) []) = successes srv (nodes s) ∧
  (successes srv (nodes s) + length (read_error_records srv (nodes s)))%nat
  = length (nodes s) ∧
  ((∀ n, n ∈ nodes s → read_ok srv n →
         is_Some (namespaces s !! NamespaceIndex (nodeid n))) →
   statistics srv s =
     (Ret tt,
      add_logs (mkLog INFO MsgCalculating
                :: read_error_records srv (nodes s)
                ++ report_lines (namespaces s) (classify srv (nodes s) [])
                ++ [mkLog INFO (MsgTotal (length (nodes s)))]) s) ∧
   reported_counts (report_lines (namespaces s) (classify srv (nodes s) []))
   = successes srv (nodes s)).
Proof.
  split_and!.
  - apply count_node_classes_run.
  - intros n e. apply read_error_records_elem.
  - by rewrite classify_total.
  - apply read_error_records_length.
  - intros Hres. split; [by apply statistics_run|].
    by rewrite reported_counts_report_lines, classify_total.
Qed.

Lemma plant_imported_resolved n :
  n ∈ nodes plant_imported → read_ok plant n →
  is_Some (namespaces plant_imported !! NamespaceIndex (nodeid n)).
Proof.
  intros Hn _. change (nodes plant_imported) with plant_nodes in Hn.
  unfold plant_nodes in Hn.
  repeat (apply elem_of_cons in Hn as [->|Hn]); try by apply elem_of_nil in Hn.
  all: apply (bool_decide_unpack _); vm_compute; exact I.
Qed.

Lemma statistics_tolerates_read_failures_witness :
  statistics plant plant_imported =
    (Ret tt,
     add_logs (mkLog INFO MsgCalculating
               :: read_error_records plant (nodes plant_imported)
               ++ report_lines (namespaces plant_imported)
                    (classify plant (nodes plant_imported) [])
               ++ [mkLog INFO (MsgTotal (length (nodes plant_imported)))])
       plant_imported) ∧
  reported_counts (report_lines (namespaces plant_imported)
                     (classify plant (nodes plant_imported) []))
  = successes plant (nodes plant_imported).
Proof.
  destruct (statistics_tolerates_read_failures plant plant_imported)
    as (_ & _ & _ & _ & Hreport).
  apply Hreport. exact plant_imported_resolved.
Defined.

(** One node of the plant fails its class read: five nodes in total, four
    in the breakdown. *)
Example plant_statistics :
  length (nodes plant_imported) = 5%nat ∧
  successes plant (nodes plant_imported) = 4%nat ∧
  classify plant (nodes plant_imported) []
  = [(0, [("NodeClass.Object", 2%nat)]);
     (2, [("NodeClass.Variable", 1%nat)]);
     (3, [("NodeClass.Object", 1%nat)])] ∧
  last (log (statistics plant plant_imported).2)
  = Some (mkLog INFO (MsgTotal 5)).
Proof. split_and!; reflexivity. Qed.

(** *** Statistics without a namespace index *)

(** On a fresh exporter, whose namespace index is empty, [statistics]
    returns. *)
Lemma statistics_before_import_returns :
  namespaces init = ∅ ∧
  statistics plant init
  = (Ret tt, add_logs [mkLog INFO MsgCalculating; mkLog INFO (MsgTotal 0)] init).
Proof. split; reflexivity. Qed.

(** C7, as the code has it.  With an empty namespace index [statistics]
    raises the [KeyError] of a namespace index, after the counting pass and
    before the total, when the class of some node of the inventory has been
    read; it returns, with the total as its last line, when the inventory is
    empty or no class could be read. *)
Theorem statistics_without_namespace_index srv s :
  namespaces s = ∅ →
  (successes srv (nodes s) ≠ 0%nat →
   ∃ ns, statistics srv s =
           (Raise (Exc (KeyError ns)),
            add_logs (mkLog INFO MsgCalculating
                      :: read_error_records srv (nodes s)) s)) ∧
  (successes srv (nodes s) = 0%nat →
   statistics srv s =
     (Ret tt,
      add_logs (mkLog INFO MsgCalculating
                :: read_error_records srv (nodes s)
                ++ [mkLog INFO (MsgTotal (length (nodes s)))]) s)).
Proof.
  intros Hempty. split; intros Hsucc.
  - rewrite statistics_unfold.
    rewrite (bind_Ret _ _ _ _ _ (count_node_classes_run srv _)). simpl.
    pose proof (classify_success srv (nodes s) [] Hsucc) as Hne.
    destruct (classify srv (nodes s) []) as [|[ns of_ns] typecounts]; [done|].
    exists ns. rewrite report_raises.
    + by rewrite add_logs_app.
    + simpl. rewrite Hempty. apply lookup_empty.
  - rewrite statistics_run.
    + by rewrite (classify_no_success srv _ [] Hsucc).
    + intros n Hn Hok. exfalso. unfold successes in Hsucc.
      apply length_zero_iff_nil in Hsucc.
      by apply (filter_nil_not_elem_of _ _ n Hsucc).
Qed.

Lemma statistics_without_namespace_index_witness :
  (∃ ns, statistics plant (set_nodes plant_nodes init) =
           (Raise (Exc (KeyError ns)),
            add_logs (mkLog INFO MsgCalculating
                      :: read_error_records plant plant_nodes)
              (set_nodes plant_nodes init))) ∧
  statistics plant (set_nodes [Valve] init) =
    (Ret tt,
     add_logs (mkLog INFO MsgCalculating
               :: read_error_records plant [Valve]
               ++ [mkLog INFO (MsgTotal 1)]) (set_nodes [Valve] init)).
Proof.
  split.
  - apply (statistics_without_namespace_index plant (set_nodes plant_nodes init));
      [reflexivity | discriminate].
  - apply (statistics_without_namespace_index plant (set_nodes [Valve] init));
      reflexivity.
Defined.

(** ** The inventory after the traversal *)

Lemma keeps_ret {A} (a : A) : keeps_nodes (ret a).
Proof. by intros s. Qed.

Lemma keeps_raise {A} e : keeps_nodes (@raise A e).
Proof. by intros s. Qed.

Lemma keeps_await {A} (r : Exception + A) : keeps_nodes (await r).
Proof. by destruct r. Qed.

Lemma keeps_logger l msg : keeps_nodes (logger l msg).
Proof. intros s. unfold logger. by case_bool_decide. Qed.

Lemma keeps_self_nodes : keeps_nodes self_nodes.
Proof. by intros s. Qed.

Lemma keeps_self_namespaces : keeps_nodes self_namespaces.
Proof. by intros s. Qed.

Lemma keeps_bind {A B} (m : M A) (f : A → M B) :
  keeps_nodes m → (∀ a, keeps_nodes (f a)) → keeps_nodes (bind m f).
Proof.
  intros Hm Hf s. unfold bind. specialize (Hm s).
  destruct (m s) as [[a|e|] s1]; simpl in *; [|done|done].
  by rewrite Hf.
Qed.

Lemma keeps_try_except {A} (m : M A) h :
  keeps_nodes m → (∀ e, keeps_nodes (h e)) → keeps_nodes (try_except m h).
Proof.
  intros Hm Hh s. unfold try_except. specialize (Hm s).
  destruct (m s) as [[a|[e|code]|] s1]; simpl in *; [done| |done|done].
  by rewrite Hh.
Qed.

Lemma keeps_for {A} (l : list A) body :
  (∀ x, keeps_nodes (body x)) → keeps_nodes (for_ l body).
Proof.
  intros Hbody. induction l as [|x l IH]; simpl; [apply keeps_ret|].
  by apply keeps_bind.
Qed.

Lemma keeps_for_acc {A B} (l : list A) (body : A → B → M B) :
  (∀ x acc, keeps_nodes (body x acc)) → ∀ acc, keeps_nodes (for_acc l acc body).
Proof.
  intros Hbody. induction l as [|x l IH]; intros acc; simpl; [apply keeps_ret|].
  by apply keeps_bind.
Qed.

Create HintDb keeps discriminated.
#[local] Hint Resolve keeps_ret keeps_raise keeps_await keeps_logger
  keeps_self_nodes keeps_self_namespaces : keeps.

Lemma statistics_keeps_nodes srv : keeps_nodes (statistics srv).
Proof.
  unfold statistics, count_node_classes, report.
  repeat first
    [ apply keeps_bind; [|intros ?]
    | apply keeps_for_acc; intros ? ?
    | apply keeps_for; intros [? ?]
    | apply keeps_try_except; [|intros ?]
    | case_match
    | solve [auto with keeps] ].
Qed.

Lemma export_xml_keeps_nodes srv namespaces output_file export_values :
  keeps_nodes (export_xml srv namespaces output_file export_values).
Proof.
  unfold export_xml.
  repeat first
    [ apply keeps_bind; [|intros ?]
    | case_match
    | solve [auto with keeps] ].
Qed.

(** C9.  However they end, neither [statistics] nor [export_xml] changes
    the inventory: [self.nodes] is afterwards the list it was, and the
    selection made for the export is a list of its own or the inventory
    itself. *)
Theorem inventory_is_read_only srv s namespaces output_file export_values :
  nodes (statistics srv s).2 = nodes s ∧
  nodes (count_node_classes srv s).2 = nodes s ∧
  nodes (export_xml srv namespaces output_file export_values s).2 = nodes s ∧
  select_for_export namespaces (nodes s) `sublist_of` nodes s.
Proof.
  split_and!.
  - apply statistics_keeps_nodes.
  - by rewrite count_node_classes_run.
  - apply export_xml_keeps_nodes.
  - unfold select_for_export. case_match; [apply sublist_filter | done].
Qed.

(** ** Connection failure *)

(** C8, as the code has it.  When [connect] raises, [import_nodes] logs
    three error records and calls [sys.exit()] without a status: [main] ends
    by [SystemExit] with no code before any node is collected, and the
    status of the process is 0. *)
Theorem connect_failure_exits_with_status_0 srv fuel args e :
  connect srv = inl e →
  security args = false ∨ set_security srv = inr tt →
  main srv fuel args init =
    (Raise (SystemExit None),
     add_logs [mkLog ERROR (MsgNoConnection e); mkLog ERROR (MsgExn e);
               mkLog ERROR MsgExiting]
       (set_client (Some (serverUrl args)) init)) ∧
  nodes (main srv fuel args init).2 = [] ∧
  exit_status (main srv fuel args init).1 = Some 0.
Proof.
  intros Hconnect Hsec.
  assert (main srv fuel args init =
    (Raise (SystemExit None),
     add_logs [mkLog ERROR (MsgNoConnection e); mkLog ERROR (MsgExn e);
               mkLog ERROR MsgExiting]
       (set_client (Some (serverUrl args)) init))) as Hmain.
  { unfold main, import_nodes, bind, try_except, await. simpl.
    destruct Hsec as [->| ->]; [|destruct (security args)];
      rewrite Hconnect; reflexivity. }
  by rewrite Hmain.
Qed.

Lemma connect_failure_exits_with_status_0_witness :
  nodes (main unreachable_plant 5
           (mkArgs "opc.tcp://plant:4840" None "nodes.xml" None None false false)
           init).2 = [] ∧
  exit_status
    (main unreachable_plant 5
       (mkArgs "opc.tcp://plant:4840" None "nodes.xml" None None false false)
       init).1 = Some 0.
Proof.
  apply (connect_failure_exits_with_status_0 unreachable_plant 5
           (mkArgs "opc.tcp://plant:4840" None "nodes.xml" None None false false)
           (UaError "ConnectionRefused")).
  - reflexivity.
  - left. reflexivity.
Defined.

(** * Further properties *)

(** ** The traversal, however it ends *)

Section TraversalOutcome.
Variable srv : Server.
Local Abbreviation browse_failure := (browse_failure srv).

Lemma grows_refl s : grows s s.
Proof.
  exists []. simpl. rewrite !app_nil_r.
  split_and!; [done | done | apply same_object_refl].
Qed.

Lemma grows_trans s1 s2 s3 : grows s1 s2 → grows s2 s3 → grows s1 s3.
Proof.
  intros (r1 & Hn1 & Hp1 & Hsame1) (r2 & Hn2 & Hp2 & Hsame2).
  exists (r1 ++ r2). split_and!.
  - by rewrite Hn2, Hn1, app_assoc.
  - rewrite Hp2, Hp1, Hn1, <-app_assoc. f_equal.
    rewrite (length_app r1 r2), seq_app. do 2 f_equal.
    rewrite length_app. lia.
  - by eapply same_object_trans.
Qed.

Lemma grows_appended node s : grows s (appended node s).
Proof.
  exists [node]. split_and!; [done | | by repeat split].
  simpl. do 2 f_equal. rewrite length_app. simpl. lia.
Qed.

Lemma browse_children_outcome visit children :
  (∀ child s r s',
     visit child s = (r, s') →
     grows s s' ∧ ∀ x, r = Raise x → browse_failure x s') →
  ∀ s r s',
    browse_children visit children s = (r, s') →
    grows s s' ∧ ∀ x, r = Raise x → browse_failure x s'.
Proof.
  intros Hvisit. induction children as [|child children IH]; intros s r s' Hrun.
  - injection Hrun as <- <-. split; [apply grows_refl | done].
  - rewrite browse_children_cons in Hrun. case_bool_decide as Hnew; [|by apply IH].
    unfold bind in Hrun.
    destruct (visit child s) as [[[]|x1|] s1] eqn:Hchild;
      destruct (Hvisit _ _ _ _ Hchild) as [Hg1 Hf1].
    + destruct (IH _ _ _ Hrun) as [Hg2 Hf2].
      split; [by eapply grows_trans | done].
    + injection Hrun as <- <-. split; [done|].
      intros x [= <-]. by apply Hf1.
    + injection Hrun as <- <-. by split.
Qed.

Lemma iterater_outcome fuel :
  ∀ node s r s',
    iterater_over_child_nodes srv fuel node s = (r, s') →
    grows s s' ∧ ∀ x, r = Raise x → browse_failure x s'.
Proof.
  induction fuel as [|fuel IH]; intros node s r s' Hrun.
  - injection Hrun as <- <-. split; [apply grows_refl | done].
  - rewrite iterater_S in Hrun. unfold bind, await in Hrun.
    destruct (get_children srv node) as [e|cs] eqn:Hget; simpl in Hrun.
    + injection Hrun as <- <-. split; [apply grows_appended|].
      intros x [= <-]. exists node, e. split_and!; [|done|done].
      simpl. apply elem_of_app. right. left.
    + destruct (browse_children_outcome _ _ IH _ _ _ Hrun) as [Hg Hf].
      split; [|done]. eapply grows_trans; [apply grows_appended | done].
Qed.

End TraversalOutcome.

(** X1.  However a visit ends (it returns, a browse raises, the fuel runs
    out), the nodes that were in the inventory stay where they are and new
    ones are added behind them, the progress bar has been given the size of
    the inventory after each addition, the namespace index, the client and
    the log are as before, and an exception that ends it is the one that
    browsing a node of the inventory raised. *)
Theorem traversal_outcome srv fuel node s :
  (∃ rest,
     nodes (iterater_over_child_nodes srv fuel node s).2 = nodes s ++ rest ∧
     progress (iterater_over_child_nodes srv fuel node s).2
     = progress s ++ seq (S (length (nodes s))) (length rest)) ∧
  namespaces (iterater_over_child_nodes srv fuel node s).2 = namespaces s ∧
  client (iterater_over_child_nodes srv fuel node s).2 = client s ∧
  log (iterater_over_child_nodes srv fuel node s).2 = log s ∧
  (∀ x, (iterater_over_child_nodes srv fuel node s).1 = Raise x →
        ∃ n e, n ∈ nodes (iterater_over_child_nodes srv fuel node s).2 ∧
               get_children srv n = inl e ∧ x = Exc e).
Proof.
  destruct (iterater_over_child_nodes srv fuel node s) as [r s'] eqn:Hrun.
  destruct (iterater_outcome srv fuel _ _ _ _ Hrun)
    as [(rest & Hn & Hp & Hns & _ & Hc & Hl) Hf].
  simpl. split_and!; try done. by exists rest.
Qed.

Lemma traversal_outcome_witness :
  ∃ n e,
    n ∈ nodes (iterater_over_child_nodes broken_plant 5 Root init).2 ∧
    get_children broken_plant n = inl e ∧
    Exc (UaError "BadTimeout") = Exc e.
Proof.
  destruct (traversal_outcome broken_plant 5 Root init) as (_ & _ & _ & _ & Hf).
  apply Hf. reflexivity.
Defined.

(** ** The order of discovery *)

Section Discovery.
Variable srv : Server.
Local Abbreviation edge := (edge srv).
Local Abbreviation below := (below srv).

Lemma below_weaken direct direct' seg :
  ∀ before before',
    (∀ n, n ∈ direct → n ∈ direct' ∨ ∃ p, p ∈ before' ∧ edge p n) →
    (∀ p, p ∈ before → p ∈ before') →
    below direct before seg → below direct' before' seg.
Proof.
  induction seg as [|n seg IH]; intros before before' Hd Hb; [done|].
  simpl. intros [Hn Hseg]. split.
  - destruct Hn as [Hn|(p & Hp & He)]; [by apply Hd|].
    right. exists p. split; [by apply Hb | done].
  - apply (IH (before ++ [n])); [| |done].
    + intros m [?|(p & Hp & He)]%Hd; [by left|].
      right. exists p. split; [|done]. apply elem_of_app. by left.
    + intros p [?|?]%elem_of_app; apply elem_of_app; [left; by apply Hb | by right].
Qed.

Lemma below_app direct seg1 seg2 :
  ∀ before,
    below direct before seg1 → below direct (before ++ seg1) seg2 →
    below direct before (seg1 ++ seg2).
Proof.
  induction seg1 as [|n seg1 IH]; intros before; simpl.
  - by rewrite app_nil_r.
  - intros [Hn H1] H2. split; [done|]. apply IH; [done|].
    by rewrite <-app_assoc.
Qed.

Lemma below_split seg :
  ∀ before l1 n l2,
    below [] before seg → seg = l1 ++ n :: l2 →
    ∃ p, p ∈ before ++ l1 ∧ edge p n.
Proof.
  induction seg as [|m seg IH]; intros before l1 n l2 Hb Heq.
  - by destruct l1.
  - destruct Hb as [Hm Hseg]. destruct l1 as [|m' l1]; simplify_eq/=.
    + destruct Hm as [Hm|(p & Hp & He)]; [by apply elem_of_nil in Hm|].
      exists p. by rewrite app_nil_r.
    + destruct (IH _ l1 n l2 Hseg eq_refl) as (p & Hp & He).
      exists p. split; [|done]. by rewrite <-app_assoc in Hp.
Qed.

Lemma browse_children_below visit children :
  (∀ child s s',
     visit child s = (Ret tt, s') →
     ∃ rest, nodes s' = nodes s ++ child :: rest ∧ below [] [child] rest) →
  ∀ s s',
    browse_children visit children s = (Ret tt, s') →
    ∃ rest, nodes s' = nodes s ++ rest ∧ below children [] rest.
Proof.
  intros Hvisit. induction children as [|child children IH]; intros s s' Hrun.
  - injection Hrun as <-. exists []. by rewrite app_nil_r.
  - rewrite browse_children_cons in Hrun. case_bool_decide as Hnew.
    + apply bind_Ret_inv in Hrun as ([] & s1 & Hchild & Hrest).
      apply Hvisit in Hchild as (r1 & Hn1 & Hb1).
      apply IH in Hrest as (r2 & Hn2 & Hb2).
      exists (child :: r1 ++ r2). split.
      * by rewrite Hn2, Hn1, <-app_assoc.
      * simpl. split; [left; left|]. apply below_app.
        -- eapply below_weaken; [| |exact Hb1]; [by intros ? ?%elem_of_nil | done].
        -- eapply below_weaken; [| |exact Hb2].
           ++ intros n Hn. left. by right.
           ++ by intros ? ?%elem_of_nil.
    + apply IH in Hrun as (r2 & Hn2 & Hb2). exists r2. split; [done|].
      eapply below_weaken; [| |exact Hb2]; [|done].
      intros n Hn. left. by right.
Qed.

Lemma iterater_below fuel :
  ∀ node s s',
    iterater_over_child_nodes srv fuel node s = (Ret tt, s') →
    ∃ rest, nodes s' = nodes s ++ node :: rest ∧ below [] [node] rest.
Proof.
  induction fuel as [|fuel IH]; intros node s s' Hrun; [done|].
  rewrite iterater_S in Hrun.
  apply bind_Ret_inv in Hrun as (cs & s1 & Hcs & Hloop).
  unfold await in Hcs. destruct (get_children srv node) as [e|cs'] eqn:Hget; [done|].
  injection Hcs as <- <-.
  apply (browse_children_below _ _ IH) in Hloop as (rest & Hn & Hb).
  simpl in Hn. exists rest. split; [by rewrite Hn, <-app_assoc|].
  eapply below_weaken; [| |exact Hb]; [|by intros ? ?%elem_of_nil].
  intros n Hn'. right. exists node. split; [left|]. by exists cs'.
Qed.

End Discovery.

(** X2.  The inventory of a traversal that returns begins with the root,
    and every other node stands behind one of its parents: it is a child,
    by a hierarchical reference, of a node collected before it. *)
Theorem inventory_in_discovery_order srv fuel root s s' :
  nodes s = [] →
  start_node_browse srv fuel root s = (Ret tt, s') →
  ∃ rest,
    nodes s' = root :: rest ∧
    ∀ l1 n l2, rest = l1 ++ n :: l2 → ∃ p, p ∈ root :: l1 ∧ edge srv p n.
Proof.
  intros Hempty Hrun. apply iterater_below in Hrun as (rest & Hn & Hb).
  rewrite Hempty in Hn. exists rest. split; [done|].
  intros l1 n l2 Heq. by apply (below_split srv rest [root] l1 n l2).
Qed.

Lemma inventory_in_discovery_order_witness :
  ∃ rest,
    nodes (start_node_browse plant 5 Root init).2 = Root :: rest ∧
    ∀ l1 n l2, rest = l1 ++ n :: l2 → ∃ p, p ∈ Root :: l1 ∧ edge plant p n.
Proof.
  apply (inventory_in_discovery_order plant 5 Root init); reflexivity.
Defined.

(** ** The count table *)

Section DictLookup.
Context {K V : Type} `{EqDecision K}.
Implicit Types (d : list (K * V)) (k : K) (v : V).

Lemma dict_get_set_ne d k k' v :
  k ≠ k' → dict_get (dict_set d k v) k' = dict_get d k'.
Proof.
  intros Hne. induction d as [|[k0 v0] d IH]; simpl.
  - by rewrite decide_False.
  - destruct (decide (k0 = k)) as [->|Hk]; simpl.
    + by rewrite !decide_False.
    + by rewrite IH.
Qed.

Lemma dict_in_keys d k : dict_in k d = true ↔ k ∈ d.*1.
Proof.
  unfold dict_in. rewrite bool_decide_eq_true.
  induction d as [|[k0 v0] d IH]; simpl.
  - split; [by intros [? ?] | by intros ?%elem_of_nil].
  - rewrite elem_of_cons. destruct (decide (k0 = k)) as [->|Hne].
    + split; [by left | by eauto].
    + rewrite IH. split; [by right | by intros [->|?]].
Qed.

Lemma dict_set_fst d k v :
  (dict_set d k v).*1 = if dict_in k d then d.*1 else d.*1 ++ [k].
Proof.
  induction d as [|[k0 v0] d IH]; [done|].
  cbn [dict_set]. destruct (decide (k0 = k)) as [->|Hne].
  - rewrite (dict_in_Some k ((k, v0) :: d) v0); [done|].
    simpl. by rewrite decide_True.
  - rewrite fmap_cons, IH.
    assert (dict_in k ((k0, v0) :: d) = dict_in k d) as ->; [|by destruct (dict_in k d)].
    unfold dict_in. simpl. by rewrite decide_False.
Qed.

Lemma dict_in_bool_decide d k : dict_in k d = bool_decide (k ∈ d.*1).
Proof.
  destruct (dict_in k d) eqn:Hin; symmetry.
  - apply bool_decide_eq_true. by apply dict_in_keys.
  - apply bool_decide_eq_false. rewrite <-dict_in_keys. by rewrite Hin.
Qed.

End DictLookup.

Section CountTable.
Variable srv : Server.
Local Abbreviation classify := (classify srv).
Local Abbreviation in_group := (in_group srv).
Local Abbreviation group_size := (group_size srv).
Local Abbreviation counted_namespaces := (counted_namespaces srv).
Local Abbreviation counted_classes := (counted_classes srv).

(** [count_node] with its two tests resolved. *)
Lemma count_node_eq typecounts ns node_class :
  count_node typecounts ns node_class =
  dict_set (if dict_in ns typecounts then typecounts
            else dict_set typecounts ns [])
    ns
    (dict_set (default [] (dict_get typecounts ns)) node_class
       (default 0%nat
          (dict_get (default [] (dict_get typecounts ns)) node_class) + 1)%nat).
Proof.
  unfold count_node. destruct (dict_get typecounts ns) as [of_ns|] eqn:Hget.
  - rewrite (dict_in_Some _ _ _ Hget). simpl. rewrite Hget. simpl.
    destruct (dict_get of_ns node_class) as [count|] eqn:Hc.
    + by rewrite (dict_in_Some _ _ _ Hc).
    + by rewrite (dict_in_None _ _ Hc).
  - rewrite (dict_in_None _ _ Hget). simpl. by rewrite dict_get_set_eq.
Qed.

Lemma count_of_count_node typecounts ns node_class ns' node_class' :
  count_of (count_node typecounts ns node_class) ns' node_class' =
  (count_of typecounts ns' node_class'
   + if bool_decide (ns = ns' ∧ node_class = node_class') then 1 else 0)%nat.
Proof.
  rewrite count_node_eq. unfold count_of.
  destruct (decide (ns = ns')) as [<-|Hns].
  - rewrite dict_get_set_eq.
    destruct (decide (node_class = node_class')) as [<-|Hc].
    + rewrite dict_get_set_eq, bool_decide_true by done. simpl.
      by destruct (dict_get typecounts ns).
    + rewrite dict_get_set_ne, bool_decide_false by (by intros [_ ?] || done).
      destruct (dict_get typecounts ns); simpl; lia.
  - rewrite dict_get_set_ne, bool_decide_false by (by intros [? _] || done).
    destruct (dict_in ns typecounts); [lia|].
    rewrite dict_get_set_ne by done. lia.
Qed.

Lemma group_size_cons ns node_class n l :
  group_size ns node_class (n :: l) =
  ((if in_group ns node_class n then 1 else 0) + group_size ns node_class l)%nat.
Proof.
  unfold group_size. destruct (in_group ns node_class n) eqn:Hin.
  - rewrite filter_cons_True; [done|]. rewrite Hin. exact I.
  - rewrite filter_cons_False; [done|]. rewrite Hin. intros H. exact H.
Qed.

Lemma count_of_classify l :
  ∀ typecounts ns node_class,
    count_of (classify l typecounts) ns node_class =
    (count_of typecounts ns node_class + group_size ns node_class l)%nat.
Proof.
  induction l as [|n l IH]; intros typecounts ns node_class.
  - unfold group_size. simpl. lia.
  - rewrite classify_cons, IH, group_size_cons, classify_one.
    unfold in_group. destruct (read_node_class srv n) as [e|c]; [lia|].
    rewrite count_of_count_node.
    destruct (bool_decide (NamespaceIndex (nodeid n) = ns ∧ str c = node_class));
      lia.
Qed.

End CountTable.

(** X3.  The counting pass of [statistics] counts by namespace and class
    label: the entry of the table for a namespace and a label is the number
    of nodes of the inventory in that namespace whose class could be read
    and has that label (0 where the table has no entry). *)
Theorem counts_are_group_sizes srv s :
  ∃ typecounts,
    (count_node_classes srv s).1 = Ret typecounts ∧
    ∀ ns node_class,
      count_of typecounts ns node_class = group_size srv ns node_class (nodes s).
Proof.
  exists (classify srv (nodes s) []). rewrite count_node_classes_run.
  split; [done|]. intros ns node_class. by rewrite count_of_classify.
Qed.

(** ** The order of the report *)

Section FirstSeen.
Context {A : Type} `{EqDecision A}.
Implicit Types (seen l : list A).

Lemma first_seen_from_cons seen x l :
  first_seen_from seen (x :: l) =
  first_seen_from (if bool_decide (x ∈ seen) then seen else seen ++ [x]) l.
Proof. reflexivity. Qed.

Lemma first_seen_from_NoDup l : ∀ seen, NoDup seen → NoDup (first_seen_from seen l).
Proof.
  induction l as [|x l IH]; intros seen Hnd; [done|].
  rewrite first_seen_from_cons. apply IH. case_bool_decide as Hx; [done|].
  apply NoDup_app. split_and!; [done| |apply NoDup_singleton].
  by intros y Hy ->%list_elem_of_singleton.
Qed.

Lemma first_seen_from_elem_of l :
  ∀ seen x, x ∈ first_seen_from seen l ↔ x ∈ seen ∨ x ∈ l.
Proof.
  induction l as [|y l IH]; intros seen x.
  - simpl. split; [by left | by intros [?|?%elem_of_nil]].
  - rewrite first_seen_from_cons, IH, elem_of_cons. case_bool_decide as Hy.
    + split; [intros [?|?]; auto | intros [?|[->|?]]; auto].
    + rewrite elem_of_app, list_elem_of_singleton.
      split; [intros [[?|?]|?]; auto | intros [?|[?|?]]; auto].
Qed.

(** What has been seen stays in front, in its order. *)
Lemma first_seen_from_prefix l : ∀ seen, seen `prefix_of` first_seen_from seen l.
Proof.
  induction l as [|x l IH]; intros seen; [done|].
  rewrite first_seen_from_cons. case_bool_decide; [apply IH|].
  etrans; [|apply IH]. by apply prefix_app_r.
Qed.

End FirstSeen.

Section ReportOrder.
Variable srv : Server.
Local Abbreviation classify := (classify srv).
Local Abbreviation counted_namespaces := (counted_namespaces srv).
Local Abbreviation counted_classes := (counted_classes srv).

Lemma count_node_fst typecounts ns node_class :
  (count_node typecounts ns node_class).*1 =
  if bool_decide (ns ∈ typecounts.*1) then typecounts.*1
  else typecounts.*1 ++ [ns].
Proof.
  rewrite count_node_eq, dict_set_fst, <-dict_in_bool_decide.
  destruct (dict_in ns typecounts) eqn:Hin.
  - by rewrite Hin.
  - rewrite (dict_in_Some ns _ []) by apply dict_get_set_eq.
    by rewrite dict_set_fst, Hin.
Qed.

Lemma count_node_classes_of typecounts ns node_class ns' :
  (default [] (dict_get (count_node typecounts ns node_class) ns')).*1 =
  if bool_decide (ns = ns')
  then if bool_decide (node_class ∈ (default [] (dict_get typecounts ns)).*1)
       then (default [] (dict_get typecounts ns)).*1
       else (default [] (dict_get typecounts ns)).*1 ++ [node_class]
  else (default [] (dict_get typecounts ns')).*1.
Proof.
  rewrite count_node_eq. case_bool_decide as Hns.
  - subst ns'. rewrite dict_get_set_eq. simpl.
    by rewrite dict_set_fst, dict_in_bool_decide.
  - rewrite dict_get_set_ne by done.
    destruct (dict_in ns typecounts); [done|]. by rewrite dict_get_set_ne.
Qed.

Lemma counted_namespaces_cons n l :
  counted_namespaces (n :: l) =
  match read_node_class srv n with
  | inr _ => NamespaceIndex (nodeid n) :: counted_namespaces l
  | inl _ => counted_namespaces l
  end.
Proof.
  unfold counted_namespaces. destruct (read_node_class srv n) as [e|c] eqn:Hread.
  - rewrite filter_cons_False; [done|]. unfold read_ok. rewrite Hread.
    intros H. exact H.
  - rewrite filter_cons_True; [done|]. unfold read_ok. rewrite Hread. exact I.
Qed.

Lemma counted_classes_cons ns n l :
  counted_classes ns (n :: l) =
  match read_node_class srv n with
  | inr c => if bool_decide (NamespaceIndex (nodeid n) = ns)
             then str c :: counted_classes ns l else counted_classes ns l
  | inl _ => counted_classes ns l
  end.
Proof.
  unfold counted_classes. simpl.
  destruct (read_node_class srv n) as [e|c]; [done|]. by case_bool_decide.
Qed.

Lemma classify_fst l :
  ∀ typecounts,
    (classify l typecounts).*1
    = first_seen_from typecounts.*1 (counted_namespaces l).
Proof.
  induction l as [|n l IH]; intros typecounts; [done|].
  rewrite classify_cons, IH, classify_one, counted_namespaces_cons.
  destruct (read_node_class srv n) as [e|c]; [done|].
  by rewrite first_seen_from_cons, count_node_fst.
Qed.

Lemma classify_classes_of l :
  ∀ typecounts ns,
    (default [] (dict_get (classify l typecounts) ns)).*1
    = first_seen_from (default [] (dict_get typecounts ns)).*1
        (counted_classes ns l).
Proof.
  induction l as [|n l IH]; intros typecounts ns; [done|].
  rewrite classify_cons, IH, classify_one, counted_classes_cons.
  destruct (read_node_class srv n) as [e|c]; [done|].
  rewrite count_node_classes_of. case_bool_decide as Hns; [|done].
  subst ns. by rewrite first_seen_from_cons.
Qed.

Lemma reported_namespaces_report_lines m typecounts :
  reported_namespaces (report_lines m typecounts) = typecounts.*1.
Proof.
  unfold reported_namespaces, report_lines.
  induction typecounts as [|[ns of_ns] typecounts IH]; [done|].
  rewrite bind_cons, omap_app, IH, fmap_cons. simpl. f_equal.
  clear IH. induction of_ns as [|[type_info count] of_ns IH]; [done|].
  rewrite fmap_cons. simpl. exact IH.
Qed.

End ReportOrder.


(** ** Import *)

Section ImportNodes.
Variable srv : Server.
Local Abbreviation index_body := (index_body srv).
Local Abbreviation namespace_index := (namespace_index srv).
Local Abbreviation ready := (ready srv).

Lemma set_namespaces_id s : set_namespaces (namespaces s) s = s.
Proof. by destruct s. Qed.

Lemma namespace_index_snoc uris uri m :
  namespace_index (uris ++ [uri]) m =
  match get_namespace_index srv uri with
  | inr idx => <[idx := uri]> (namespace_index uris m)
  | inl _ => namespace_index uris m
  end.
Proof. unfold namespace_index. by rewrite foldl_app. Qed.

Lemma index_loop_run uris :
  ∀ s,
    (∀ uri, uri ∈ uris → ∃ idx, get_namespace_index srv uri = inr idx) →
    for_ uris index_body s
    = (Ret tt, set_namespaces (namespace_index uris (namespaces s)) s).
Proof.
  induction uris as [|uri uris IH]; intros s Hidx.
  - simpl. by rewrite set_namespaces_id.
  - destruct (Hidx uri) as [idx Huri]; [left|].
    simpl. unfold bind at 1. unfold index_body at 1, bind, await.
    rewrite Huri. simpl. rewrite IH by (intros u Hu; apply Hidx; by right).
    unfold namespace_index. simpl. rewrite ?Huri. reflexivity.
Qed.

(** Each URI is found under its index when no two URIs share an index. *)
Lemma namespace_index_lookup uris m uri idx :
  (∀ u u' i, u ∈ uris → u' ∈ uris →
             get_namespace_index srv u = inr i →
             get_namespace_index srv u' = inr i → u = u') →
  uri ∈ uris → get_namespace_index srv uri = inr idx →
  namespace_index uris m !! idx = Some uri.
Proof.
  induction uris as [|last uris IH] using rev_ind; [by intros _ ?%elem_of_nil|].
  intros Hinj Hin Huri. rewrite namespace_index_snoc.
  destruct (decide (uri = last)) as [->|Hne].
  - rewrite Huri. apply lookup_insert_eq.
  - apply elem_of_app in Hin as [Hin|?%list_elem_of_singleton]; [|done].
    assert (namespace_index uris m !! idx = Some uri) as Hlook.
    { apply IH; [|done|done]. intros u u' i Hu Hu'.
      apply Hinj; apply elem_of_app; by left. }
    destruct (get_namespace_index srv last) as [e|i] eqn:Hlast; [done|].
    rewrite lookup_insert_ne; [done|]. intros ->. apply Hne.
    apply (Hinj uri last idx); [| |done|done]; apply elem_of_app; [by left|].
    right. left.
Qed.

(** An index that the server gives for no URI keeps its entry. *)
Lemma namespace_index_other uris m idx :
  (∀ uri, uri ∈ uris → get_namespace_index srv uri ≠ inr idx) →
  namespace_index uris m !! idx = m !! idx.
Proof.
  induction uris as [|last uris IH] using rev_ind; [done|].
  intros Hno. rewrite namespace_index_snoc.
  assert (namespace_index uris m !! idx = m !! idx) as Hlook.
  { apply IH. intros u Hu. apply Hno, elem_of_app. by left. }
  destruct (get_namespace_index srv last) as [e|i] eqn:Hlast; [done|].
  rewrite lookup_insert_ne; [done|]. intros ->.
  apply (Hno last); [|done]. apply elem_of_app. right. left.
Qed.

Lemma ready_eq server_url uris s :
  add_log (mkLog INFO MsgStartCollect)
    (set_namespaces
       (namespace_index uris
          (namespaces (add_log (mkLog INFO (MsgConnected server_url))
                         (set_client (Some server_url) s))))
       (add_log (mkLog INFO (MsgConnected server_url))
          (set_client (Some server_url) s)))
  = ready server_url uris s.
Proof.
  unfold ready, add_logs, add_log, set_namespaces, set_client. simpl.
  by rewrite <-app_assoc.
Qed.

(** [import_nodes] up to the traversal, when the session answers. *)
Lemma import_nodes_connected fuel server_url username password security uris s :
  security = false ∨ set_security srv = inr tt →
  connect srv = inr tt →
  get_namespace_array srv = inr uris →
  (∀ uri, uri ∈ uris → ∃ idx, get_namespace_index srv uri = inr idx) →
  import_nodes srv fuel server_url username password security s =
  (start_node_browse srv fuel (get_root_node srv) ;;
   logger INFO MsgAllCollected) (ready server_url uris s).
Proof.
  intros Hsec Hconnect Huris Hidx. unfold import_nodes.
  unfold bind at 1. unfold bind at 1.
  assert ((if security then await (set_security srv) else ret tt)
            (set_client (Some server_url) s)
          = (Ret tt, set_client (Some server_url) s)) as ->.
  { destruct Hsec as [->| ->]; [done | by destruct security]. }
  unfold bind at 1. unfold try_except, await at 1. rewrite Hconnect. simpl.
  unfold bind at 1. rewrite logger_info.
  unfold bind at 1. unfold await at 1. rewrite Huris. simpl.
  unfold bind at 1.
  change (for_ uris _) with (for_ uris index_body).
  rewrite index_loop_run by done.
  unfold bind at 1. rewrite logger_info. by rewrite ready_eq.
Qed.

End ImportNodes.

Lemma browse_then_log_frame srv fuel root s0 :
  namespaces ((start_node_browse srv fuel root ;;
               logger INFO MsgAllCollected) s0).2 = namespaces s0 ∧
  client ((start_node_browse srv fuel root ;;
           logger INFO MsgAllCollected) s0).2 = client s0.
Proof.
  unfold bind, start_node_browse.
  destruct (iterater_over_child_nodes srv fuel root s0) as [r s1] eqn:Hrun.
  destruct (iterater_outcome srv fuel _ _ _ _ Hrun)
    as [(rest & _ & _ & Hns & _ & Hc & _) _].
  destruct r as [[]|x|]; simpl; by rewrite ?Hns, ?Hc.
Qed.

(** X5.  When the session is established and gives the namespace array and
    an index for each of its URIs, no two URIs sharing an index, then after
    [import_nodes], however its traversal ends, the namespace index gives
    each URI of the array under the index of that URI, and an index that
    belongs to no URI of the array has the entry it had. *)
Theorem import_builds_namespace_index
    srv fuel server_url username password security uris s :
  security = false ∨ set_security srv = inr tt →
  connect srv = inr tt →
  get_namespace_array srv = inr uris →
  (∀ uri, uri ∈ uris → ∃ idx, get_namespace_index srv uri = inr idx) →
  (∀ u u' i, u ∈ uris → u' ∈ uris →
             get_namespace_index srv u = inr i →
             get_namespace_index srv u' = inr i → u = u') →
  (∀ uri idx,
     uri ∈ uris → get_namespace_index srv uri = inr idx →
     namespaces
       (import_nodes srv fuel server_url username password security s).2
     !! idx = Some uri) ∧
  (∀ idx,
     (∀ uri, uri ∈ uris → get_namespace_index srv uri ≠ inr idx) →
     namespaces
       (import_nodes srv fuel server_url username password security s).2
     !! idx = namespaces s !! idx).
Proof.
  intros Hsec Hconnect Huris Hidx Hinj.
  rewrite (import_nodes_connected srv fuel server_url username password
             security uris s) by done.
  destruct (browse_then_log_frame srv fuel (get_root_node srv)
              (ready srv server_url uris s)) as [-> _].
  simpl. split.
  - intros uri idx Hin Huri. by apply namespace_index_lookup.
  - intros idx Hno. by apply namespace_index_other.
Qed.

Lemma plant_uris_indexed uri :
  uri ∈ ["http://opcfoundation.org/UA/"; "urn:vendor"; "urn:plant"; "urn:site"] →
  ∃ idx, get_namespace_index plant uri = inr idx.
Proof.
  intros Hin. repeat (apply elem_of_cons in Hin as [->|Hin]);
    [by eexists..|by apply elem_of_nil in Hin].
Qed.

Lemma plant_uris_distinct u u' i :
  u ∈ ["http://opcfoundation.org/UA/"; "urn:vendor"; "urn:plant"; "urn:site"] →
  u' ∈ ["http://opcfoundation.org/UA/"; "urn:vendor"; "urn:plant"; "urn:site"] →
  get_namespace_index plant u = inr i →
  get_namespace_index plant u' = inr i → u = u'.
Proof.
  intros Hu Hu'.
  repeat (apply elem_of_cons in Hu as [->|Hu]); try by apply elem_of_nil in Hu.
  all: repeat (apply elem_of_cons in Hu' as [->|Hu']);
    try by apply elem_of_nil in Hu'.
  all: vm_compute; congruence.
Qed.

Lemma import_builds_namespace_index_witness :
  namespaces (import_nodes plant 5 "opc.tcp://plant:4840" None None false init).2
  !! 2 = Some "urn:plant" ∧
  namespaces (import_nodes plant 5 "opc.tcp://plant:4840" None None false init).2
  !! 7 = namespaces init !! 7.
Proof.
  destruct (import_builds_namespace_index plant 5 "opc.tcp://plant:4840"
              None None false
              ["http://opcfoundation.org/UA/"; "urn:vendor"; "urn:plant"; "urn:site"]
              init) as [Hfound Hother].
  - by left.
  - reflexivity.
  - reflexivity.
  - exact plant_uris_indexed.
  - exact plant_uris_distinct.
  - split.
    + apply Hfound; [|reflexivity]. do 2 right. left.
    + apply Hother. intros uri Hin.
      repeat (apply elem_of_cons in Hin as [->|Hin]);
        [discriminate..|by apply elem_of_nil in Hin].
Defined.

(** [import_nodes] on a session that answers and a finite address space. *)
Lemma import_nodes_run
    srv U fuel server_url username password security uris s :
  security = false ∨ set_security srv = inr tt →
  connect srv = inr tt →
  get_namespace_array srv = inr uris →
  (∀ uri, uri ∈ uris → ∃ idx, get_namespace_index srv uri = inr idx) →
  address_space srv U → get_root_node srv ∈ U → (length U ≤ fuel)%nat →
  nodes s = [] →
  ∃ s',
    import_nodes srv fuel server_url username password security s
    = (Ret tt, s') ∧
    NoDup (nodes s') ∧
    (∀ n, n ∈ nodes s' ↔ reachable srv (get_root_node srv) n) ∧
    client s' = Some server_url ∧
    namespaces s' = namespace_index srv uris (namespaces s) ∧
    log s' = log s ++ [mkLog INFO (MsgConnected server_url);
                       mkLog INFO MsgStartCollect;
                       mkLog INFO MsgAllCollected].
Proof.
  intros Hsec Hconnect Huris Hidx HU Hroot Hfuel Hempty.
  rewrite (import_nodes_connected srv fuel server_url username password
             security uris s) by done.
  destruct (traversal_returns srv U fuel (get_root_node srv)
              (ready srv server_url uris s)) as (s1 & Hrun); try done.
  destruct (traversal_sound srv fuel (get_root_node srv)
              (ready srv server_url uris s) s1 Hempty Hrun) as (Hnd & Hiff).
  pose proof (iterater_post srv fuel _ _ _ Hrun)
    as (rest & _ & _ & _ & _ & _ & Hns & _ & Hc & Hl).
  exists (add_log (mkLog INFO MsgAllCollected) s1).
  rewrite (bind_Ret _ _ _ _ _ Hrun), logger_info. simpl.
  split_and!; try done. rewrite Hl. simpl. by rewrite <-app_assoc.
Qed.

(** X6.  On a fresh inventory, when the session answers and the address
    space is finite, [import_nodes] returns: the inventory holds each node
    reachable from the root node of the server once and no other, the client
    is the one made for the URL, the namespace index is built, and three
    records are logged: connected, start of the collection, all collected. *)
Theorem import_nodes_collects
    srv U fuel server_url username password security uris s :
  security = false ∨ set_security srv = inr tt →
  connect srv = inr tt →
  get_namespace_array srv = inr uris →
  (∀ uri, uri ∈ uris → ∃ idx, get_namespace_index srv uri = inr idx) →
  address_space srv U → get_root_node srv ∈ U → (length U ≤ fuel)%nat →
  nodes s = [] →
  ∃ s',
    import_nodes srv fuel server_url username password security s
    = (Ret tt, s') ∧
    NoDup (nodes s') ∧
    (∀ n, n ∈ nodes s' ↔ reachable srv (get_root_node srv) n) ∧
    client s' = Some server_url ∧
    namespaces s' = namespace_index srv uris (namespaces s) ∧
    log s' = log s ++ [mkLog INFO (MsgConnected server_url);
                       mkLog INFO MsgStartCollect;
                       mkLog INFO MsgAllCollected].
Proof.
  intros. by eapply import_nodes_run.
Qed.

Lemma import_nodes_collects_witness :
  ∃ s',
    import_nodes plant 5 "opc.tcp://plant:4840" None None false init
    = (Ret tt, s') ∧
    NoDup (nodes s') ∧
    (∀ n, n ∈ nodes s' ↔ reachable plant (get_root_node plant) n) ∧
    client s' = Some "opc.tcp://plant:4840" ∧
    namespaces s'
    = namespace_index plant
        ["http://opcfoundation.org/UA/"; "urn:vendor"; "urn:plant"; "urn:site"]
        (namespaces init) ∧
    log s' = log init ++ [mkLog INFO (MsgConnected "opc.tcp://plant:4840");
                          mkLog INFO MsgStartCollect;
                          mkLog INFO MsgAllCollected].
Proof.
  apply (import_nodes_collects plant plant_nodes 5 "opc.tcp://plant:4840"
           None None false).
  - by left.
  - reflexivity.
  - reflexivity.
  - exact plant_uris_indexed.
  - exact plant_address_space.
  - left.
  - simpl. lia.
  - reflexivity.
Defined.

(** ** Export *)

(** [export_xml], by what the serializer answers. *)
Lemma export_xml_run srv namespaces output_file export_values s :
  export_xml srv namespaces output_file export_values s =
  let started :=
    add_logs ((if truthy namespaces
               then [mkLog INFO (MsgExportOnlyNS (default [] namespaces))]
               else [])
              ++ [mkLog INFO (MsgExportNodesTo output_file);
                  mkLog INFO (MsgExportValues export_values)]) s in
  match build_etree srv (select_for_export namespaces (nodes s)) export_values with
  | inl e => (Raise (Exc e), started)
  | inr _ =>
      match write_xml srv output_file with
      | inl e => (Raise (Exc e), started)
      | inr _ => (Ret tt, add_logs [mkLog INFO MsgExportFinished] started)
      end
  end.
Proof.
  simpl.
  destruct (build_etree srv (select_for_export namespaces (nodes s))
              export_values) as [e|[]] eqn:Hbuild;
    destruct (write_xml srv output_file) as [e'|[]] eqn:Hwrite;
    unfold export_xml, bind, self_nodes, await;
    destruct (truthy namespaces);
    repeat first
      [ rewrite logger_info | rewrite Hbuild | rewrite Hwrite | progress simpl ];
    unfold add_logs, add_log, raise, ret; simpl;
    rewrite <-?app_assoc; reflexivity.
Qed.

(** X7.  [export_xml] logs what it exports and hands the serializer the
    selected nodes, not the inventory: when [build_etree] raises on the
    selection, or [write_xml] on the file, the exception leaves [export_xml]
    and no end of the export is logged; otherwise [export_xml] returns and
    the end of the export is its last record. *)
Theorem export_xml_outcome srv namespaces output_file export_values s :
  export_xml srv namespaces output_file export_values s =
  let started :=
    add_logs ((if truthy namespaces
               then [mkLog INFO (MsgExportOnlyNS (default [] namespaces))]
               else [])
              ++ [mkLog INFO (MsgExportNodesTo output_file);
                  mkLog INFO (MsgExportValues export_values)]) s in
  match build_etree srv (select_for_export namespaces (nodes s)) export_values with
  | inl e => (Raise (Exc e), started)
  | inr _ =>
      match write_xml srv output_file with
      | inl e => (Raise (Exc e), started)
      | inr _ => (Ret tt, add_logs [mkLog INFO MsgExportFinished] started)
      end
  end.
Proof. apply export_xml_run. Qed.

(** X8.  Which nodes a list of namespaces selects depends on the
    namespaces that are in the list only, not on their order or on how
    often they are given. *)
Theorem select_for_export_by_membership (F F' : list Z) (l : list Node) :
  F ≠ [] → F' ≠ [] → (∀ ns, ns ∈ F ↔ ns ∈ F') →
  select_for_export (Some F) l = select_for_export (Some F') l.
Proof.
  intros HF HF' Hsame. destruct F as [|ns F]; [done|].
  destruct F' as [|ns' F']; [done|].
  rewrite !select_for_export_nonempty. apply list_filter_iff.
  intros n. apply Hsame.
Qed.

Lemma select_for_export_by_membership_witness :
  select_for_export (Some [2; 3; 2]) plant_nodes
  = select_for_export (Some [3; 2]) plant_nodes.
Proof.
  apply select_for_export_by_membership; [discriminate | discriminate |].
  intros ns. rewrite !elem_of_cons, !elem_of_nil. tauto.
Defined.

(** ** What [statistics] and [export_xml] write *)

Lemma only_logs_ret {A} (a : A) : only_logs (ret a).
Proof. intros s. exists []. simpl. by rewrite add_logs_nil. Qed.

Lemma only_logs_raise {A} e : only_logs (@raise A e).
Proof. intros s. exists []. simpl. by rewrite add_logs_nil. Qed.

Lemma only_logs_await {A} (r : Exception + A) : only_logs (await r).
Proof. destruct r; [apply only_logs_raise | apply only_logs_ret]. Qed.

Lemma only_logs_logger l msg : only_logs (logger l msg).
Proof.
  intros s. unfold logger. case_bool_decide.
  - by exists [mkLog l msg].
  - exists []. simpl. by rewrite add_logs_nil.
Qed.

Lemma only_logs_self_nodes : only_logs self_nodes.
Proof. intros s. exists []. simpl. by rewrite add_logs_nil. Qed.

Lemma only_logs_self_namespaces : only_logs self_namespaces.
Proof. intros s. exists []. simpl. by rewrite add_logs_nil. Qed.

Lemma only_logs_bind {A B} (m : M A) (f : A → M B) :
  only_logs m → (∀ a, only_logs (f a)) → only_logs (bind m f).
Proof.
  intros Hm Hf s. unfold bind. destruct (Hm s) as [rs Hrs].
  destruct (m s) as [[a|e|] s1]; simpl in *; [|by exists rs..].
  destruct (Hf a s1) as [rs' Hrs']. exists (rs ++ rs').
  by rewrite Hrs', Hrs, add_logs_app.
Qed.

Lemma only_logs_try_except {A} (m : M A) h :
  only_logs m → (∀ e, only_logs (h e)) → only_logs (try_except m h).
Proof.
  intros Hm Hh s. unfold try_except. destruct (Hm s) as [rs Hrs].
  destruct (m s) as [[a|[e|code]|] s1]; simpl in *; [by exists rs| |by exists rs..].
  destruct (Hh e s1) as [rs' Hrs']. exists (rs ++ rs').
  by rewrite Hrs', Hrs, add_logs_app.
Qed.

Lemma only_logs_for {A} (l : list A) body :
  (∀ x, only_logs (body x)) → only_logs (for_ l body).
Proof.
  intros Hbody. induction l as [|x l IH]; simpl; [apply only_logs_ret|].
  by apply only_logs_bind.
Qed.

Lemma only_logs_for_acc {A B} (l : list A) (body : A → B → M B) :
  (∀ x acc, only_logs (body x acc)) → ∀ acc, only_logs (for_acc l acc body).
Proof.
  intros Hbody. induction l as [|x l IH]; intros acc; simpl; [apply only_logs_ret|].
  by apply only_logs_bind.
Qed.

Create HintDb only_logs discriminated.
#[local] Hint Resolve only_logs_ret only_logs_raise only_logs_await
  only_logs_logger only_logs_self_nodes only_logs_self_namespaces : only_logs.

Lemma statistics_only_logs srv : only_logs (statistics srv).
Proof.
  unfold statistics, count_node_classes, report.
  repeat first
    [ apply only_logs_bind; [|intros ?]
    | apply only_logs_for_acc; intros ? ?
    | apply only_logs_for; intros [? ?]
    | apply only_logs_try_except; [|intros ?]
    | case_match
    | solve [auto with only_logs] ].
Qed.

Lemma export_xml_only_logs srv namespaces output_file export_values :
  only_logs (export_xml srv namespaces output_file export_values).
Proof.
  intros s. rewrite export_xml_run. simpl.
  destruct (build_etree srv _ export_values) as [e|[]]; [by eexists|].
  destruct (write_xml srv output_file) as [e'|[]]; [by eexists|].
  rewrite add_logs_app. by eexists.
Qed.

(** X9.  However they end, [statistics] and [export_xml] leave the exporter
    as it was but for the records they add to the end of the log: the
    namespace index, the client, the inventory and the progress of the
    traversal are the same objects with the same contents. *)
Theorem statistics_and_export_only_log
    srv namespaces output_file export_values s :
  (∃ rs, (statistics srv s).2 = add_logs rs s) ∧
  (∃ rs, (export_xml srv namespaces output_file export_values s).2
         = add_logs rs s).
Proof. split; [apply statistics_only_logs | apply export_xml_only_logs]. Qed.

(** ** The whole run *)

(** X10.  A failure of the security set-up is not handled as a failure to
    connect is: with security asked for, the exception that the set-up
    raises leaves [main] before the connection is tried; nothing is logged,
    no node is collected, and the status of the process is 1. *)
Theorem security_failure_is_not_caught srv fuel args e :
  security args = true →
  set_security srv = inl e →
  main srv fuel args init
  = (Raise (Exc e), set_client (Some (serverUrl args)) init) ∧
  exit_status (main srv fuel args init).1 = Some 1.
Proof.
  intros Hsec Hset.
  assert (main srv fuel args init
          = (Raise (Exc e), set_client (Some (serverUrl args)) init)) as ->.
  { unfold main, import_nodes, bind, await. by rewrite Hsec, Hset. }
  done.
Qed.

Lemma security_failure_is_not_caught_witness :
  main broken_plant 5
    (mkArgs "opc.tcp://plant:4840" None "nodes.xml" None None true false) init
  = (Raise (Exc (UaError "cert.der not found")),
     set_client (Some "opc.tcp://plant:4840") init) ∧
  exit_status
    (main broken_plant 5
       (mkArgs "opc.tcp://plant:4840" None "nodes.xml" None None true false)
       init).1 = Some 1.
Proof.
  apply (security_failure_is_not_caught broken_plant 5
           (mkArgs "opc.tcp://plant:4840" None "nodes.xml" None None true false)
           (UaError "cert.der not found")); reflexivity.
Defined.



(** X12.  When the session answers, the address space is finite and
    browsed without failure, the namespaces of the nodes whose class can be
    read are in the namespace array, and the serializer and the
    disconnection succeed, [main] returns with status 0: the inventory
    holds each node reachable from the root once, the statistics have given
    its size as total, and the end of the export is the last record of the
    log. *)
Theorem main_succeeds srv U fuel args uris :
  security args = false ∨ set_security srv = inr tt →
  connect srv = inr tt →
  get_namespace_array srv = inr uris →
  (∀ uri, uri ∈ uris → ∃ idx, get_namespace_index srv uri = inr idx) →
  address_space srv U → get_root_node srv ∈ U → (length U ≤ fuel)%nat →
  (∀ n, reachable srv (get_root_node srv) n → read_ok srv n →
        is_Some (namespace_index srv uris ∅ !! NamespaceIndex (nodeid n))) →
  (∀ l, build_etree srv l (export_values args) = inr tt) →
  write_xml srv (outputFile args) = inr tt →
  disconnect srv = inr tt →
  ∃ s',
    main srv fuel args init = (Ret tt, s') ∧
    exit_status (main srv fuel args init).1 = Some 0 ∧
    NoDup (nodes s') ∧
    (∀ n, n ∈ nodes s' ↔ reachable srv (get_root_node srv) n) ∧
    mkLog INFO (MsgTotal (length (nodes s'))) ∈ log s' ∧
    last (log s') = Some (mkLog INFO MsgExportFinished).
Proof.
  intros Hsec Hconnect Huris Hidx HU Hroot Hfuel Hres Hbuild Hwrite Hdisc.
  destruct (import_nodes_run srv U fuel (serverUrl args) (username args)
              (password args) (security args) uris init)
    as (s1 & Himport & Hnd & Hiff & _ & Hns & _); try done.
  assert (statistics srv s1 =
    (Ret tt,
     add_logs (mkLog INFO MsgCalculating
               :: read_error_records srv (nodes s1)
               ++ report_lines (namespaces s1) (classify srv (nodes s1) [])
               ++ [mkLog INFO (MsgTotal (length (nodes s1)))]) s1)) as Hstat.
  { apply statistics_run. intros n Hn Hok. rewrite Hns. simpl.
    apply Hres; [by apply Hiff | done]. }
  assert (∃ rs,
    main srv fuel args init =
    (Ret tt,
     add_logs (rs ++ [mkLog INFO MsgExportFinished])
       (add_logs (mkLog INFO MsgCalculating
                  :: read_error_records srv (nodes s1)
                  ++ report_lines (namespaces s1) (classify srv (nodes s1) [])
                  ++ [mkLog INFO (MsgTotal (length (nodes s1)))]) s1)))
    as [rs ->].
  { eexists. unfold main.
    rewrite (bind_Ret _ _ _ _ _ Himport), (bind_Ret _ _ _ _ _ Hstat).
    unfold bind at 1. rewrite export_xml_run. simpl.
    rewrite Hbuild, Hwrite. unfold await. rewrite Hdisc.
    unfold bind, ret. by rewrite add_logs_app. }
  eexists. split_and!; [reflexivity | done | done | done | |]; simpl.
  - rewrite !elem_of_app. left. right. rewrite elem_of_cons, !elem_of_app.
    right. right. right. left.
  - by rewrite !app_assoc, last_snoc.
Qed.

Lemma plant_resolved n :
  reachable plant (get_root_node plant) n → read_ok plant n →
  is_Some (namespace_index plant
             ["http://opcfoundation.org/UA/"; "urn:vendor"; "urn:plant"; "urn:site"]
             ∅ !! NamespaceIndex (nodeid n)).
Proof.
  intros Hreach _.
  assert (n ∈ plant_nodes) as Hn.
  { eapply reachable_address_space;
      [exact plant_address_space | exact Hreach | left]. }
  unfold plant_nodes in Hn.
  repeat (apply elem_of_cons in Hn as [->|Hn]); try by apply elem_of_nil in Hn.
  all: by_evaluation.
Qed.

Lemma main_succeeds_witness :
  ∃ s',
    main plant 5
      (mkArgs "opc.tcp://plant:4840" (Some [2]) "nodes.xml" None None false false)
      init = (Ret tt, s') ∧
    exit_status
      (main plant 5
         (mkArgs "opc.tcp://plant:4840" (Some [2]) "nodes.xml" None None
            false false) init).1 = Some 0 ∧
    NoDup (nodes s') ∧
    (∀ n, n ∈ nodes s' ↔ reachable plant (get_root_node plant) n) ∧
    mkLog INFO (MsgTotal (length (nodes s'))) ∈ log s' ∧
    last (log s') = Some (mkLog INFO MsgExportFinished).
Proof.
  apply (main_succeeds plant plant_nodes 5
           (mkArgs "opc.tcp://plant:4840" (Some [2]) "nodes.xml" None None
              false false)
           ["http://opcfoundation.org/UA/"; "urn:vendor"; "urn:plant"; "urn:site"]).
  - by left.
  - reflexivity.
  - reflexivity.
  - exact plant_uris_indexed.
  - exact plant_address_space.
  - left.
  - simpl. lia.
  - exact plant_resolved.
  - reflexivity.
  - reflexivity.
  - reflexivity.
Defined.

(** ** The [visited] list *)

Lemma keeps_visited_ret {A} (a : A) : keeps_visited (ret a).
Proof. by intros s. Qed.

Lemma keeps_visited_raise {A} e : keeps_visited (@raise A e).
Proof. by intros s. Qed.

Lemma keeps_visited_await {A} (r : Exception + A) : keeps_visited (await r).
Proof. by destruct r. Qed.

Lemma keeps_visited_logger l msg : keeps_visited (logger l msg).
Proof. intros s. unfold logger. by case_bool_decide. Qed.

Lemma keeps_visited_bind {A B} (m : M A) (f : A → M B) :
  keeps_visited m → (∀ a, keeps_visited (f a)) → keeps_visited (bind m f).
Proof.
  intros Hm Hf s. unfold bind. specialize (Hm s).
  destruct (m s) as [[a|e|] s1]; simpl in *; [|done|done].
  by rewrite Hf.
Qed.

Lemma keeps_visited_try_except {A} (m : M A) h :
  keeps_visited m → (∀ e, keeps_visited (h e)) → keeps_visited (try_except m h).
Proof.
  intros Hm Hh s. unfold try_except. specialize (Hm s).
  destruct (m s) as [[a|[e|code]|] s1]; simpl in *; [done| |done|done].
  by rewrite Hh.
Qed.

Lemma keeps_visited_for {A} (l : list A) body :
  (∀ x, keeps_visited (body x)) → keeps_visited (for_ l body).
Proof.
  intros Hbody. induction l as [|x l IH]; simpl; [apply keeps_visited_ret|].
  by apply keeps_visited_bind.
Qed.

Lemma keeps_visited_only_logs {A} (m : M A) : only_logs m → keeps_visited m.
Proof. intros Hm s. destruct (Hm s) as [rs ->]. done. Qed.

Lemma keeps_visited_iterater srv fuel node :
  keeps_visited (iterater_over_child_nodes srv fuel node).
Proof.
  intros s.
  destruct (iterater_over_child_nodes srv fuel node s) as [r s'] eqn:Hrun.
  by destruct (iterater_outcome srv fuel _ _ _ _ Hrun)
    as [(rest & _ & _ & _ & Hv & _) _].
Qed.

Lemma keeps_visited_import_nodes srv fuel server_url username password security :
  keeps_visited (import_nodes srv fuel server_url username password security).
Proof.
  unfold import_nodes, sys_exit, start_node_browse.
  repeat first
    [ apply keeps_visited_bind; [|intros ?]
    | apply keeps_visited_try_except; [|intros ?]
    | apply keeps_visited_for; intros ?
    | apply keeps_visited_iterater
    | apply keeps_visited_await
    | apply keeps_visited_logger
    | apply keeps_visited_ret
    | apply keeps_visited_raise
    | case_match
    | by intros ? ].
Qed.

(** X13.  The [visited] list of the exporter is never written: whatever
    the session answers and however [main] ends, the list is as empty as
    [__init__] made it.  What has been visited is looked up in the
    inventory. *)
Theorem visited_is_never_written srv fuel args :
  visited (main srv fuel args init).2 = [].
Proof.
  assert (keeps_visited (main srv fuel args)) as Hmain; [|apply (Hmain init)].
  unfold main.
  apply keeps_visited_bind; [apply keeps_visited_import_nodes|intros _].
  apply keeps_visited_bind;
    [apply keeps_visited_only_logs, statistics_only_logs|intros _].
  apply keeps_visited_bind;
    [apply keeps_visited_only_logs, export_xml_only_logs|intros _].
  apply keeps_visited_await.
Qed.

(** ** Where the traversal tests for a collected node *)

Section CollectedNodes.
Variable srv : Server.

(** A loop over children that are all in the inventory visits none. *)
Lemma browse_children_all_collected visit children :
  ∀ s, (∀ c, c ∈ children → c ∈ nodes s) →
       browse_children visit children s = (Ret tt, s).
Proof.
  induction children as [|child children IH]; intros s Hin; [done|].
  rewrite browse_children_cons, bool_decide_false.
  - apply IH. intros c Hc. apply Hin. by right.
  - intros Hnew. apply Hnew, Hin. left.
Qed.

Lemma browse_children_NoDup visit children :
  (∀ child s r s',
     visit child s = (r, s') →
     NoDup (nodes s) → child ∉ nodes s → NoDup (nodes s')) →
  ∀ s r s',
    browse_children visit children s = (r, s') →
    NoDup (nodes s) → NoDup (nodes s').
Proof.
  intros Hvisit. induction children as [|child children IH];
    intros s r s' Hrun Hnd.
  - by injection Hrun as <- <-.
  - rewrite browse_children_cons in Hrun. case_bool_decide as Hnew;
      [|by eapply IH].
    unfold bind in Hrun.
    destruct (visit child s) as [[[]|x1|] s1] eqn:Hchild;
      pose proof (Hvisit _ _ _ _ Hchild Hnd Hnew) as Hnd1.
    + by eapply IH.
    + by injection Hrun as <- <-.
    + by injection Hrun as <- <-.
Qed.

(** However a visit of a node that is not in the inventory ends, an
    inventory without duplicates stays without duplicates. *)
Lemma iterater_NoDup fuel :
  ∀ node s r s',
    iterater_over_child_nodes srv fuel node s = (r, s') →
    NoDup (nodes s) → node ∉ nodes s → NoDup (nodes s').
Proof.
  induction fuel as [|fuel IH]; intros node s r s' Hrun Hnd Hnew.
  - by injection Hrun as <- <-.
  - assert (NoDup (nodes (appended node s))) as Hnd1.
    { simpl. apply NoDup_app. split_and!; [done| |apply NoDup_singleton].
      by intros x Hx ->%list_elem_of_singleton. }
    rewrite iterater_S in Hrun. unfold bind, await in Hrun.
    destruct (get_children srv node) as [e|cs]; simpl in Hrun.
    + by injection Hrun as <- <-.
    + by eapply (browse_children_NoDup _ _ IH).
Qed.

(** The node of a visit is appended, whatever the inventory holds. *)
Lemma iterater_appends fuel node s :
  ∃ rest,
    nodes (iterater_over_child_nodes srv (S fuel) node s).2
    = nodes s ++ node :: rest.
Proof.
  rewrite iterater_S. unfold bind, await.
  destruct (get_children srv node) as [e|cs]; simpl.
  - by exists [].
  - destruct (browse_children (iterater_over_child_nodes srv fuel) cs
                (appended node s)) as [r s'] eqn:Hrun.
    destruct (browse_children_outcome srv _ _ (iterater_outcome srv fuel)
                _ _ _ Hrun) as [(rest & Hn & _) _].
    exists rest. simpl in *. by rewrite Hn, <-app_assoc.
Qed.

End CollectedNodes.

(** C4, as the code has it.  The visit has no test of its own: it appends
    its node whatever the inventory holds.  The test is the caller's, in the
    loop of the visit over the children.  A visit all of whose children are
    in the inventory, the visited node counted in as for a node that refers
    to itself, returns with its own node appended and nothing else; however
    the visit of a node that is not in the inventory ends, it puts no node a
    second time into an inventory without duplicates; and on a finite
    address space a traversal started on an empty inventory returns with
    its root once, also when the root is reachable from itself. *)
Theorem collected_child_is_passed_over srv :
  (∀ fuel node s,
     ∃ rest,
       nodes (iterater_over_child_nodes srv (S fuel) node s).2
       = nodes s ++ node :: rest) ∧
  (∀ fuel node s cs,
     get_children srv node = inr cs →
     (∀ c, c ∈ cs → c ∈ nodes s ++ [node]) →
     iterater_over_child_nodes srv (S fuel) node s
     = (Ret tt, appended node s)) ∧
  (∀ fuel node s,
     NoDup (nodes s) → node ∉ nodes s →
     NoDup (nodes (iterater_over_child_nodes srv fuel node s).2)) ∧
  (∀ U fuel root s,
     address_space srv U → root ∈ U → nodes s = [] → (length U ≤ fuel)%nat →
     ∃ s', start_node_browse srv fuel root s = (Ret tt, s') ∧
           occurrences root (nodes s') = 1%nat).
Proof.
  split_and!.
  - intros fuel node s. apply iterater_appends.
  - intros fuel node s cs Hcs Hin. rewrite iterater_S.
    unfold bind, await. rewrite Hcs. simpl.
    by apply browse_children_all_collected.
  - intros fuel node s Hnd Hnew.
    destruct (iterater_over_child_nodes srv fuel node s) as [r s'] eqn:Hrun.
    by eapply iterater_NoDup.
  - intros U fuel root s HU Hroot Hempty Hfuel.
    destruct (traversal_returns srv U fuel root s) as (s' & Hrun); try done.
    destruct (traversal_sound srv fuel root s s') as (Hnd & Hiff); try done.
    exists s'. split; [done|].
    apply occurrences_NoDup; [done|]. apply Hiff, rtc_refl.
Qed.

Lemma collected_child_is_passed_over_witness :
  iterater_over_child_nodes plant 1 Root (set_nodes [Objects; Pump] init)
  = (Ret tt, appended Root (set_nodes [Objects; Pump] init)) ∧
  NoDup (nodes (iterater_over_child_nodes plant 3 Root init).2) ∧
  (∃ s', start_node_browse plant 5 Root init = (Ret tt, s') ∧
         occurrences Root (nodes s') = 1%nat).
Proof.
  destruct (collected_child_is_passed_over plant)
    as (_ & Hskip & Hnodup & Honce).
  split_and!.
  - apply (Hskip 0%nat Root (set_nodes [Objects; Pump] init)
             (plant_children Root)); [reflexivity|].
    intros c Hc. change (plant_children Root) with [Objects; Pump; Root] in Hc.
    repeat (apply elem_of_cons in Hc as [->|Hc]);
      [by_evaluation..|by apply elem_of_nil in Hc].
  - apply Hnodup; [constructor | apply not_elem_of_nil].
  - apply (Honce plant_nodes 5%nat Root init);
      [exact plant_address_space | left | reflexivity | simpl; lia].
Defined.
